(** * generate_alt_text.py: the alt-text pipeline, embedded and verified

    A shallow embedding of [src/python/generate_alt_text.py]: the four
    regular expressions, the image locator, the path resolver, the
    per-image captioning and rewriting loop of [process_file], and the
    lemmas that relate them to the repository's specification.

    Modelling conventions.
    - A Python [str] is a [list ascii]; a character is a code point below
      256.  The classes [\s] and [\w] are the ones Python's Unicode-aware
      [re] uses on that range.
    - Exceptions are values: a call that may raise returns an [outcome],
      and code outside every [try] returns a [result] whose [Abort] case is
      the exception leaving [process_file].
    - The file system, the captioners and the network are fields of an
      environment record; documents and transient files live in an explicit
      [World] that is threaded through the calls.
    - [Path.exists()] and [write_text] can raise [OSError] (a name that is
      too long, a directory that cannot be searched or written): an
      existence check answers or raises, a write succeeds or raises, and
      neither is inside a [try], so the exception leaves [process_file].
    - Nothing but the run changes the file system while it runs: a check
      or a read that is repeated gives the same answer.  What an exception
      leaves behind on disk is not part of a [result]. *)

From Stdlib Require Import List Ascii String Bool Arith Lia Sorted.
Import ListNotations.

Set Implicit Arguments.

(* ================================================================= *)
(** ** Strings *)

Definition str := list ascii.

(** String literals of the source, as character lists. *)
Definition L (s : string) : str := list_ascii_of_string s.

(** The double quote and the backslash, which literals cannot hold. *)
Definition dq : ascii := "034"%char.
Definition sq : ascii := "039"%char.
Definition bsl : ascii := "092"%char.

Definition str_eqb (a b : str) : bool :=
  if list_eq_dec ascii_dec a b then true else false.

(** [s.startswith(p)] *)
Fixpoint startswith (p s : str) : bool :=
  match p, s with
  | [], _ => true
  | _ :: _, [] => false
  | a :: p', b :: s' => Ascii.eqb a b && startswith p' s'
  end.

(** [s.split(c)[0]]: the part of [s] before the first [c]. *)
Fixpoint before (c : ascii) (s : str) : str :=
  match s with
  | [] => []
  | x :: s' => if Ascii.eqb x c then [] else x :: before c s'
  end.

(** [s.lstrip(c)] for a one-character set. *)
Fixpoint lstrip (c : ascii) (s : str) : str :=
  match s with
  | x :: s' => if Ascii.eqb x c then lstrip c s' else s
  | [] => []
  end.

(** [s.rstrip(c)] for a one-character set. *)
Definition rstrip (c : ascii) (s : str) : str := rev (lstrip c (rev s)).

(** [s[a:b]] for [0 <= a], [0 <= b]. *)
Definition slice (s : str) (a b : nat) : str := firstn (b - a) (skipn a s).

(** [s.split(c)] *)
Fixpoint split_on (c : ascii) (s : str) : list str :=
  match s with
  | [] => [[]]
  | x :: s' =>
      if Ascii.eqb x c then [] :: split_on c s'
      else match split_on c s' with
           | w :: ws => (x :: w) :: ws
           | [] => [[x]]
           end
  end.

(** [s] between double quotes. *)
Definition q (s : str) : str := dq :: s ++ [dq].

(** Python truthiness of a [str]. *)
Definition truthy (s : str) : bool :=
  match s with [] => false | _ :: _ => true end.

(* ================================================================= *)
(** ** Character classes of [re] on code points below 256 *)

Definition code (c : ascii) : nat := nat_of_ascii c.

Definition in_range (lo hi : nat) (c : ascii) : bool :=
  (lo <=? code c) && (code c <=? hi).

(** [\s] for [str] patterns: the characters for which [str.isspace()]
    holds. *)
Definition is_space (c : ascii) : bool :=
  in_range 9 13 c || in_range 28 32 c
  || (code c =? 133) || (code c =? 160).

(** [\w] for [str] patterns: alphanumerics and the underscore. *)
Definition is_word (c : ascii) : bool :=
  in_range 48 57 c || in_range 65 90 c || in_range 97 122 c
  || (code c =? 95)
  || (code c =? 170) || (code c =? 178) || (code c =? 179)
  || (code c =? 181) || (code c =? 185) || (code c =? 186)
  || in_range 188 190 c
  || in_range 192 214 c || in_range 216 246 c || in_range 248 255 c.

(** Lower-casing as [re.I] applies it to the letters of the patterns:
    below 256 only [A-Z] fold onto [a-z]. *)
Definition lower (c : ascii) : ascii :=
  if in_range 65 90 c then ascii_of_nat (code c + 32) else c.

Definition chr_eq (icase : bool) (p x : ascii) : bool :=
  if icase then Ascii.eqb (lower p) (lower x) else Ascii.eqb p x.

Definition not_in (cs : list ascii) : ascii -> bool :=
  fun x => negb (existsb (Ascii.eqb x) cs).
Definition one_of (cs : list ascii) : ascii -> bool :=
  fun x => existsb (Ascii.eqb x) cs.

(* ================================================================= *)
(** ** A backtracking matcher for the constructs the patterns use *)

Inductive regex : Type :=
  | Lit (c : ascii)                 (* a literal character *)
  | Cls (f : ascii -> bool)         (* [...] *)
  | Star (f : ascii -> bool)        (* [...]*  greedy *)
  | Plus (f : ascii -> bool)        (* [...]+  greedy *)
  | Cat (r1 r2 : regex)             (* r1 r2 *)
  | Opt (r : regex)                 (* (?:r)?  greedy *)
  | Group (n : nat) (r : regex)     (* (r), the n-th capturing group *)
  | Bnd.                            (* \b *)

(** The matcher's position: offset in the text, the text from there on,
    the character before it (for [\b]) and the groups closed so far. *)
Record mstate : Type := MState {
  pos : nat;
  rest : str;
  prev : option ascii;
  caps : list (nat * (nat * nat))
}.

Definition advance (st : mstate) (x : ascii) (rs : str) : mstate :=
  MState (S (pos st)) rs (Some x) (caps st).

Definition word_at (o : option ascii) : bool :=
  match o with Some c => is_word c | None => false end.

Definition at_boundary (st : mstate) : bool :=
  xorb (word_at (prev st)) (word_at (hd_error (rest st))).

(** Greedy repetition of a class: take as many characters as possible,
    then give characters back one at a time until the continuation
    succeeds. *)
Fixpoint star_bt {A : Type} (f : ascii -> bool) (p : nat) (rs : str)
    (pv : option ascii) (k : nat -> str -> option ascii -> option A)
    : option A :=
  match rs with
  | c :: rs' =>
      if f c then
        match star_bt f (S p) rs' (Some c) k with
        | Some r => Some r
        | None => k p rs pv
        end
      else k p rs pv
  | [] => k p rs pv
  end.

Fixpoint bt {A : Type} (icase : bool) (r : regex) (st : mstate)
    (k : mstate -> option A) : option A :=
  match r with
  | Lit c =>
      match rest st with
      | x :: rs => if chr_eq icase c x then k (advance st x rs) else None
      | [] => None
      end
  | Cls f =>
      match rest st with
      | x :: rs => if f x then k (advance st x rs) else None
      | [] => None
      end
  | Star f =>
      star_bt f (pos st) (rest st) (prev st)
        (fun p rs pv => k (MState p rs pv (caps st)))
  | Plus f =>
      match rest st with
      | x :: rs =>
          if f x then
            star_bt f (S (pos st)) rs (Some x)
              (fun p rs' pv => k (MState p rs' pv (caps st)))
          else None
      | [] => None
      end
  | Cat r1 r2 => bt icase r1 st (fun st' => bt icase r2 st' k)
  | Opt r1 =>
      match bt icase r1 st k with
      | Some x => Some x
      | None => k st
      end
  | Group n r1 =>
      bt icase r1 st
        (fun st' =>
           k (MState (pos st') (rest st') (prev st')
                ((n, (pos st, pos st')) :: caps st')))
  | Bnd => if at_boundary st then k st else None
  end.

(** The character last consumed after reading [xs]. *)
Definition last_seen (pv : option ascii) (xs : str) : option ascii :=
  fold_left (fun _ c => Some c) xs pv.

(** A repetition of the class [f] cannot go on into [ys]. *)
Definition stops (f : ascii -> bool) (ys : str) : Prop :=
  match ys with
  | [] => True
  | y :: _ => f y = false
  end.

(** A compiled pattern: its expression and the [re.I] flag. *)
Record pattern : Type := Pattern { p_re : regex; p_icase : bool }.

(** A match object: [m.start()], [m.end()] and the group spans. *)
Record rmatch : Type := RMatch {
  m_start : nat;
  m_end : nat;
  m_caps : list (nat * (nat * nat))
}.

Fixpoint lookup_cap (n : nat) (l : list (nat * (nat * nat)))
    : option (nat * nat) :=
  match l with
  | [] => None
  | (i, se) :: l' => if i =? n then Some se else lookup_cap n l'
  end.

(** [m.group(n)] for a match [m] in [txt]; group 0 is the whole match. *)
Definition group (txt : str) (m : rmatch) (n : nat) : str :=
  match n with
  | 0 => slice txt (m_start m) (m_end m)
  | _ => match lookup_cap n (m_caps m) with
         | Some (a, b) => slice txt a b
         | None => []
         end
  end.

(** One attempt at offset [p], where the text continues with [rs]. *)
Definition match_at (P : pattern) (pv : option ascii) (p : nat) (rs : str)
    : option rmatch :=
  bt (p_icase P) (p_re P) (MState p rs pv [])
    (fun st => Some (RMatch p (pos st) (caps st))).

(** The leftmost match at or after offset [p]. *)
Fixpoint search_from (P : pattern) (pv : option ascii) (p : nat) (rs : str)
    : option rmatch :=
  match match_at P pv p rs with
  | Some m => Some m
  | None =>
      match rs with
      | [] => None
      | c :: rs' => search_from P (Some c) (S p) rs'
      end
  end.

(** The character before offset [p] of [txt]. *)
Definition prev_char (txt : str) (p : nat) : option ascii :=
  match p with
  | 0 => None
  | S q => nth_error txt q
  end.

(** [P.search(txt, pos)]; an offset past the end is clamped to it. *)
Definition search (P : pattern) (txt : str) (p : nat) : option rmatch :=
  let q := Nat.min p (List.length txt) in
  search_from P (prev_char txt q) q (skipn q txt).

(** [P.finditer(txt)] from offset [p]: after a match the scan resumes at
    its end; [skip] counts the characters still inside the last match. *)
Fixpoint finditer_from (P : pattern) (pv : option ascii) (p : nat)
    (rs : str) (skip : nat) {struct rs} : list rmatch :=
  match skip with
  | S k =>
      match rs with
      | [] => []
      | c :: rs' => finditer_from P (Some c) (S p) rs' k
      end
  | 0 =>
      match match_at P pv p rs with
      | Some m =>
          m :: match rs with
               | [] => []
               | c :: rs' => finditer_from P (Some c) (S p) rs' (m_end m - S p)
               end
      | None =>
          match rs with
          | [] => []
          | c :: rs' => finditer_from P (Some c) (S p) rs' 0
          end
      end
  end.

Definition finditer (P : pattern) (txt : str) : list rmatch :=
  finditer_from P None 0 txt 0.

(* ================================================================= *)
(** ** The patterns of the module *)

(** The concatenation of a non-empty sequence of expressions. *)
Fixpoint cat (rs : list regex) : regex :=
  match rs with
  | [] => Star (fun _ => false)
  | [r] => r
  | r :: rs' => Cat r (cat rs')
  end.

Definition lits (s : string) : list regex := map Lit (L s).

(** The patterns are shown element by element.  No blank shown is part of
    a pattern, except the one inside the class [[^) ]]; [Q] is written
    for the double quote character.

    [MD_IMG_RE]:   [!]  [\[]  [([^\]]* )]  [\]]  [\(]  [([^) ]+)]
                   [(?:\s+ Q [^Q]* Q)?]  [\)] *)
Definition MD_IMG_RE : pattern :=
  Pattern
    (cat [Lit "!"; Lit "[";
          Group 1 (Star (not_in ["]"%char]));
          Lit "]"; Lit "(";
          Group 2 (Plus (not_in [")"%char; " "%char]));
          Opt (cat [Plus is_space; Lit dq; Star (not_in [dq]); Lit dq]);
          Lit ")"])
    false.

(** [HTML_IMG_RE]:   [<img]  [\b]  [[^>]* ]  [>]   with [re.I] *)
Definition HTML_IMG_RE : pattern :=
  Pattern
    (cat (lits "<img" ++ [Bnd; Star (not_in [">"%char]); Lit ">"]))
    true.

(** [SRC_RE]:   [src=]  [[Q']]  [([^Q']+)]  [[Q']]   with [re.I] *)
Definition SRC_RE : pattern :=
  Pattern
    (cat (lits "src=" ++
          [Cls (one_of [dq; sq]); Group 1 (Plus (not_in [dq; sq]));
           Cls (one_of [dq; sq])]))
    true.

(** [ALT_RE]:   [alt=]  [[Q']]  [([^Q']* )]  [[Q']]   with [re.I] *)
Definition ALT_RE : pattern :=
  Pattern
    (cat (lits "alt=" ++
          [Cls (one_of [dq; sq]); Group 1 (Star (not_in [dq; sq]));
           Cls (one_of [dq; sq])]))
    true.

(* ================================================================= *)
(** ** Replacement templates and [sub] *)

(** A parsed replacement string: literal characters and group
    references. *)
Inductive titem : Type :=
  | TLit (c : ascii)
  | TGroup (n : nat).

Definition is_digit (c : ascii) : bool := in_range 48 57 c.
Definition is_octdigit (c : ascii) : bool := in_range 48 55 c.
Definition is_ascii_letter (c : ascii) : bool :=
  in_range 65 90 c || in_range 97 122 c.
Definition digit_val (c : ascii) : nat := code c - 48.

Fixpoint decimal_val (acc : nat) (s : str) : nat :=
  match s with
  | [] => acc
  | c :: s' => decimal_val (10 * acc + digit_val c) s'
  end.

(** The single-character escapes a replacement string may hold:
    [\a \b \f \n \r \t \v] and the doubled backslash. *)
Definition escape_char (c : ascii) : option ascii :=
  if Ascii.eqb c "a" then Some (ascii_of_nat 7)
  else if Ascii.eqb c "b" then Some (ascii_of_nat 8)
  else if Ascii.eqb c "f" then Some (ascii_of_nat 12)
  else if Ascii.eqb c "n" then Some (ascii_of_nat 10)
  else if Ascii.eqb c "r" then Some (ascii_of_nat 13)
  else if Ascii.eqb c "t" then Some (ascii_of_nat 9)
  else if Ascii.eqb c "v" then Some (ascii_of_nat 11)
  else if Ascii.eqb c bsl then Some bsl
  else None.

Definition group_ref (groups n : nat) (tl : option (list titem))
    : option (list titem) :=
  if n <=? groups then option_map (cons (TGroup n)) tl else None.

(** The template parser of [re] for a pattern with [groups] groups and no
    named group; [None] is [re.error] (or [IndexError]).  Every round
    consumes a character, so [fuel] above the length of [s] is never
    exhausted. *)
Fixpoint parse_template_fuel (fuel groups : nat) (s : str)
    : option (list titem) :=
  match fuel with
  | 0 => None
  | S fuel' =>
      let continue := parse_template_fuel fuel' groups in
      match s with
      | [] => Some []
      | c :: s1 =>
          if negb (Ascii.eqb c bsl) then option_map (cons (TLit c)) (continue s1)
          else
            match s1 with
            | [] => None                     (* bad escape (end of pattern) *)
            | e :: s2 =>
                if Ascii.eqb e "g" then
                  match s2 with
                  | lt :: s3 =>
                      let name := before ">" s3 in
                      if Ascii.eqb lt "<"
                         && (List.length name <? List.length s3)
                         && truthy name && forallb is_digit name
                      then group_ref groups (decimal_val 0 name)
                             (continue (skipn (S (List.length name)) s3))
                      else None
                  | [] => None
                  end
                else if Ascii.eqb e "0" then
                  match s2 with
                  | d1 :: s3 =>
                      if is_octdigit d1 then
                        match s3 with
                        | d2 :: s4 =>
                            if is_octdigit d2 then
                              option_map
                                (cons (TLit (ascii_of_nat
                                               (8 * digit_val d1 + digit_val d2))))
                                (continue s4)
                            else
                              option_map (cons (TLit (ascii_of_nat (digit_val d1))))
                                (continue s3)
                        | [] =>
                            option_map (cons (TLit (ascii_of_nat (digit_val d1))))
                              (continue s3)
                        end
                      else option_map (cons (TLit (ascii_of_nat 0))) (continue s2)
                  | [] => option_map (cons (TLit (ascii_of_nat 0))) (continue s2)
                  end
                else if is_digit e then
                  match s2 with
                  | d1 :: s3 =>
                      if is_digit d1 then
                        match s3 with
                        | d2 :: s4 =>
                            if is_octdigit e && is_octdigit d1 && is_octdigit d2
                            then
                              let v := 64 * digit_val e + 8 * digit_val d1
                                       + digit_val d2 in
                              if 255 <? v then None
                              else option_map (cons (TLit (ascii_of_nat v)))
                                     (continue s4)
                            else group_ref groups
                                   (10 * digit_val e + digit_val d1) (continue s3)
                        | [] =>
                            group_ref groups
                              (10 * digit_val e + digit_val d1) (continue s3)
                        end
                      else group_ref groups (digit_val e) (continue s2)
                  | [] => group_ref groups (digit_val e) (continue s2)
                  end
                else
                  match escape_char e with
                  | Some x => option_map (cons (TLit x)) (continue s2)
                  | None =>
                      if is_ascii_letter e then None       (* bad escape *)
                      else option_map (fun t => TLit c :: TLit e :: t)
                             (continue s2)
                  end
            end
      end
  end.

Definition parse_template (groups : nat) (s : str) : option (list titem) :=
  parse_template_fuel (S (List.length s)) groups s.

Fixpoint ngroups (r : regex) : nat :=
  match r with
  | Cat r1 r2 => ngroups r1 + ngroups r2
  | Opt r1 => ngroups r1
  | Group _ r1 => S (ngroups r1)
  | _ => 0
  end.

Definition expand (tpl : list titem) (txt : str) (m : rmatch) : str :=
  flat_map (fun i => match i with
                     | TLit c => [c]
                     | TGroup n => group txt m n
                     end) tpl.

(** The text with every match replaced, scanning from offset [cur]. *)
Fixpoint sub_matches (tpl : list titem) (txt : str) (cur : nat)
    (ms : list rmatch) : str :=
  match ms with
  | [] => skipn cur txt
  | m :: ms' =>
      slice txt cur (m_start m) ++ expand tpl txt m
      ++ sub_matches tpl txt (m_end m) ms'
  end.

(** [P.sub(repl, txt)] for a string [repl]; [None] when [re] rejects the
    replacement string. *)
Definition sub (P : pattern) (repl txt : str) : option str :=
  match parse_template (ngroups (p_re P)) repl with
  | None => None
  | Some tpl => Some (sub_matches tpl txt 0 (finditer P txt))
  end.

(* ================================================================= *)
(** ** Paths *)

(** A [pathlib] path on a POSIX system: whether it is anchored at the
    root, and its components. *)
Record Path : Type := MkPath { p_abs : bool; p_parts : list str }.

Definition Path_eq_dec (a b : Path) : {a = b} + {a <> b}.
Proof.
  decide equality.
  - apply (list_eq_dec (list_eq_dec ascii_dec)).
  - apply Bool.bool_dec.
Defined.

Definition Path_eqb (a b : Path) : bool :=
  if Path_eq_dec a b then true else false.

Definition is_part (w : str) : bool :=
  truthy w && negb (str_eqb w (L ".")).

(** [Path(s)]: empty components and [.] components are dropped. *)
Definition Path_of (s : str) : Path :=
  MkPath (startswith (L "/") s) (filter is_part (split_on "/" s)).

(** [a / s] *)
Definition joinpath (a : Path) (s : str) : Path :=
  if startswith (L "/") s then Path_of s
  else MkPath (p_abs a) (p_parts a ++ p_parts (Path_of s)).

(** [a.parent] *)
Definition parent (a : Path) : Path :=
  MkPath (p_abs a) (removelast (p_parts a)).

(** [a.with_suffix(a.suffix + ".bak")] *)
Definition bak_path (a : Path) : Path :=
  MkPath (p_abs a) (removelast (p_parts a) ++ [last (p_parts a) [] ++ L ".bak"]).

(* ================================================================= *)
(** ** The environment and the world *)

(** The result of a call that may raise: a value, or the message of the
    exception. *)
Inductive outcome : Type :=
  | Returns (s : str)
  | Raises (msg : str).

(** What [caption_via_hf_api] is asked to read: an image file, or the
    transient file holding a downloaded image. *)
Inductive fileref : Type :=
  | LocalFile (p : Path)
  | TempFile (content : str).

(** Exceptions that no [try] of the module catches. *)
Inductive error : Type :=
  | re_error            (* raised by [ALT_RE.sub] on a bad replacement *)
  | file_not_found      (* raised by [read_text] *)
  | os_error.           (* raised by [Path.exists()] and by [write_text] *)

Inductive result (A : Type) : Type :=
  | Ok (a : A)
  | Abort (e : error).

Arguments Abort {A} e.

Definition bind {A B : Type} (r : result A) (f : A -> result B) : result B :=
  match r with
  | Ok a => f a
  | Abort e => Abort e
  end.

Notation "x <- r ;; k" := (bind r (fun x => k))
  (at level 61, r at next level, right associativity).

Record Env : Type := MkEnv {
  e_exists : Path -> option bool;             (* Path.exists(); None: raises *)
  e_writable : Path -> bool;                  (* writing there does not raise *)
  e_caption_func : option (Path -> outcome);  (* the local captioner *)
  e_token : option str;                       (* HF_API_TOKEN *)
  e_hf_api : fileref -> str -> outcome;       (* caption_via_hf_api *)
  e_http_get : str -> outcome                 (* requests.get, raise_for_status *)
}.

(** Stored documents, the transient files that exist, and the name the
    next transient file gets. *)
Record World : Type := MkWorld {
  w_docs : list (Path * str);
  w_temps : list nat;
  w_fresh : nat
}.

Fixpoint read_text (docs : list (Path * str)) (p : Path) : option str :=
  match docs with
  | [] => None
  | (q, t) :: docs' => if Path_eqb q p then Some t else read_text docs' p
  end.

(** The world in which [p] holds [t]. *)
Definition put_text (w : World) (p : Path) (t : str) : World :=
  MkWorld ((p, t) :: filter (fun d => negb (Path_eqb (fst d) p)) (w_docs w))
          (w_temps w) (w_fresh w).

(** [p.write_text(t)] *)
Definition write_text (E : Env) (w : World) (p : Path) (t : str)
    : result World :=
  if e_writable E p then Ok (put_text w p t) else Abort os_error.

(** [p.exists()] *)
Definition Path_exists (E : Env) (p : Path) : result bool :=
  match e_exists E p with
  | Some b => Ok b
  | None => Abort os_error
  end.

(** [tempfile.NamedTemporaryFile(delete=False)] *)
Definition create_temp (w : World) : nat * World :=
  (w_fresh w, MkWorld (w_docs w) (w_fresh w :: w_temps w) (S (w_fresh w))).

(** [os.unlink(tf.name)] *)
Definition unlink (n : nat) (w : World) : World :=
  MkWorld (w_docs w) (filter (fun x => negb (x =? n)) (w_temps w)) (w_fresh w).

(* ================================================================= *)
(** ** The image locator *)

Inductive kind : Type := md | html.

(** An entry of the locator's result: [(kind, src, span_start_index)]. *)
Definition image : Type := (kind * str * nat)%type.

Definition img_kind (i : image) : kind := fst (fst i).
Definition img_src (i : image) : str := snd (fst i).
Definition img_start (i : image) : nat := snd i.

Definition md_image (text : str) (m : rmatch) : image :=
  (md, group text m 2, m_start m).

Definition html_image (text : str) (m : rmatch) : list image :=
  let tag := group text m 0 in
  match search SRC_RE tag 0 with
  | Some s => [(html, group tag s 1, m_start m)]
  | None => []
  end.

Definition find_images_in_markdown (text : str) : list image :=
  map (md_image text) (finditer MD_IMG_RE text)
  ++ flat_map (html_image text) (finditer HTML_IMG_RE text).

(* ================================================================= *)
(** ** The path resolver *)

(** [src.split("?")[0].split("#")[0]] *)
Definition strip_query (src : str) : str := before "#" (before "?" src).

Definition is_remote (p : str) : bool :=
  startswith (L "http://") p || startswith (L "https://") p.

(** The candidate list of [resolve_image_path], for a stripped source. *)
Definition candidates (p : str) (md_path : Path) : list Path :=
  if startswith (L "/") p then
    [joinpath (Path_of (L "static")) (lstrip "/" p); Path_of (lstrip "/" p)]
  else
    [joinpath (parent md_path) p; joinpath (Path_of (L "static")) p; Path_of p].

(** The [for c in candidates] loop with its early return. *)
Fixpoint first_existing (E : Env) (cs : list Path) : result (option Path) :=
  match cs with
  | [] => Ok None
  | c :: cs' =>
      ex <- Path_exists E c ;;
      if ex then Ok (Some c) else first_existing E cs'
  end.

Definition resolve_image_path (E : Env) (src : str) (md_path : Path)
    : result (option Path) :=
  let p := strip_query src in
  if is_remote p then Ok None
  else
    let cs := candidates p md_path in
    r <- first_existing E cs ;;
    match r with
    | Some c => Ok (Some c)
    | None => Ok (hd_error cs)
    end.

(* ================================================================= *)
(** ** Captioning one image *)

(** [f"(error: {e})"] *)
Definition placeholder (msg : str) : str := L "(error: " ++ msg ++ L ")".

(** A [try] body whose exception becomes the placeholder caption. *)
Definition caught (o : outcome) : str :=
  match o with
  | Returns c => c
  | Raises msg => placeholder msg
  end.

(** The token when it is set and not empty ([if token]). *)
Definition token_set (E : Env) : option str :=
  match e_token E with
  | Some t => if truthy t then Some t else None
  | None => None
  end.

(** [img_path and img_path.exists()] *)
Definition path_exists (E : Env) (o : option Path) : result bool :=
  match o with
  | Some p => Path_exists E p
  | None => Ok false
  end.

(** The download branch: the image goes to a transient file, which is
    unlinked once [caption_via_hf_api] has returned. *)
Definition caption_remote (E : Env) (token src : str) (w : World)
    : str * World :=
  match e_http_get E src with
  | Raises msg => (placeholder msg, w)
  | Returns content =>
      let (n, w1) := create_temp w in
      match e_hf_api E (TempFile content) token with
      | Returns c => (c, unlink n w1)
      | Raises msg => (placeholder msg, w1)
      end
  end.

(** Lines 160 to 187 of [process_file]: the caption of one image.  The
    resolver and the existence check of line 162 are outside the two
    [try] blocks. *)
Definition caption_image (E : Env) (path : Path) (src : str) (w : World)
    : result (str * World) :=
  img_path <- resolve_image_path E src path ;;
  ex <- path_exists E img_path ;;
  Ok (if ex then
        match img_path, e_caption_func E, token_set E with
        | Some p, Some f, _ => (caught (f p), w)
        | Some p, None, Some t => (caught (e_hf_api E (LocalFile p) t), w)
        | _, _, _ => ([], w)
        end
      else
        match token_set E with
        | Some t =>
            if startswith (L "http") src then caption_remote E t src w
            else ([], w)
        | None => ([], w)
        end).

(* ================================================================= *)
(** ** Processing a document *)

(** A row of the report: [(path, kind, src, old_alt, caption)]. *)
Record ChangeRecord : Type := MkChange {
  c_path : Path;
  c_kind : kind;
  c_src : str;
  c_old_alt : str;
  c_caption : str
}.

(** [txt[:m.start()] + new + txt[m.end():]] *)
Definition splice (txt : str) (m : rmatch) (new : str) : str :=
  firstn (m_start m) txt ++ new ++ skipn (m_end m) txt.

(** [f'![{caption}]({src})'] *)
Definition md_markup (caption src : str) : str :=
  L "![" ++ caption ++ L "](" ++ src ++ L ")".

(** [f'alt=Q{caption}Q'] *)
Definition alt_attr (caption : str) : str :=
  L "alt=" ++ dq :: caption ++ [dq].

Definition has_match (P : pattern) (txt : str) : bool :=
  match search P txt 0 with Some _ => true | None => false end.

(** Lines 196 to 201: the new tag. *)
Definition new_tag (tag caption : str) : result str :=
  if has_match ALT_RE tag then
    match sub ALT_RE (alt_attr caption) tag with
    | Some t => Ok t
    | None => Abort re_error
    end
  else Ok (rstrip ">" tag ++ L " " ++ alt_attr caption ++ L ">").

(** Lines 193 to 202: the text after the rewrite of one image. *)
Definition rewrite (k : kind) (txt : str) (m : rmatch) (caption src : str)
    : result str :=
  match k with
  | md => Ok (splice txt m (md_markup caption src))
  | html =>
      t <- new_tag (group txt m 0) caption ;;
      Ok (splice txt m t)
  end.

(** Lines 146 to 157: the match found again from the recorded offset. *)
Definition find_again (k : kind) (txt : str) (p : nat) : option rmatch :=
  match k with
  | md => search MD_IMG_RE txt p
  | html => search HTML_IMG_RE txt p
  end.

Definition old_alt_of (k : kind) (txt : str) (m : rmatch) : str :=
  match k with
  | md => group txt m 1
  | html =>
      let tag := group txt m 0 in
      match search ALT_RE tag 0 with
      | Some a => group tag a 1
      | None => []
      end
  end.

(** The variables the loop of [process_file] updates. *)
Record lstate : Type := LState {
  l_txt : str;
  l_changes : list ChangeRecord;
  l_world : World
}.

(** One round of the loop over [images]. *)
Definition process_image (E : Env) (path : Path) (apply : bool)
    (st : lstate) (img : image) : result lstate :=
  let '(k, src, p) := img in
  match find_again k (l_txt st) p with
  | None => Ok st                                           (* continue *)
  | Some m =>
      let old_alt := old_alt_of k (l_txt st) m in
      r <- caption_image E path src (l_world st) ;;
      let (caption, w) := r in
      let changes := l_changes st ++ [MkChange path k src old_alt caption] in
      if apply && truthy caption then
        t <- rewrite k (l_txt st) m caption src ;;
        Ok (LState t changes w)
      else Ok (LState (l_txt st) changes w)
  end.

Fixpoint process_images (E : Env) (path : Path) (apply : bool)
    (st : lstate) (images : list image) : result lstate :=
  match images with
  | [] => Ok st
  | img :: images' =>
      st' <- process_image E path apply st img ;;
      process_images E path apply st' images'
  end.

(** [process_file(path, caption_func, token, apply)]: the change list, and
    the world it leaves. *)
Definition process_file (E : Env) (w : World) (path : Path) (apply : bool)
    : result (list ChangeRecord * World) :=
  match read_text (w_docs w) path with
  | None => Abort file_not_found
  | Some txt =>
      st <- process_images E path apply (LState txt [] w)
              (find_images_in_markdown txt) ;;
      if apply && negb (str_eqb (l_txt st) txt) then
        w1 <- write_text E (l_world st) (bak_path path) txt ;;
        w2 <- write_text E w1 path (l_txt st) ;;
        Ok (l_changes st, w2)
      else Ok (l_changes st, l_world st)
  end.

(** The loop of [main] over the sorted document list. *)
Fixpoint process_all (E : Env) (w : World) (md_files : list Path)
    (apply : bool) : result (list ChangeRecord * World) :=
  match md_files with
  | [] => Ok ([], w)
  | f :: fs =>
      r <- process_file E w f apply ;;
      r' <- process_all E (snd r) fs apply ;;
      Ok (fst r ++ fst r', snd r')
  end.

(* ================================================================= *)
(** ** Properties the specification states *)


(** Captioning the image answers: no existence check on the way to its
    caption raises.  The world only records transient files. *)
Definition captioned (E : Env) (path : Path) (src : str) : bool :=
  match caption_image E path src (MkWorld [] [] 0) with
  | Ok _ => true
  | Abort _ => false
  end.

(** The caption of an image, when captioning it answers (the empty
    string stands in when it does not). *)
Definition caption_text (E : Env) (path : Path) (src : str) : str :=
  match caption_image E path src (MkWorld [] [] 0) with
  | Ok r => fst r
  | Abort _ => []
  end.

(** An image whose rewrite puts back the text that is there: it is not
    found again, or it has a caption (captioning it answers) and the
    caption is empty, or the Markdown match is the markup of the caption
    with no title, or the tag has [alt] attributes that the substitution
    leaves as they are. *)
Definition settled (E : Env) (path : Path) (txt : str) (img : image) : bool :=
  let cap := caption_text E path (img_src img) in
  match find_again (img_kind img) txt (img_start img) with
  | None => true
  | Some m =>
      let whole := group txt m 0 in
      captioned E path (img_src img)
      && (negb (truthy cap)
          || match img_kind img with
             | md => str_eqb whole (md_markup cap (img_src img))
             | html =>
                 has_match ALT_RE whole
                 && match sub ALT_RE (alt_attr cap) whole with
                    | Some t => str_eqb t whole
                    | None => false
                    end
             end)
  end.

(** The places where captioning an image raises: the local captioner,
    the remote call on a local file, the download, and the remote call on
    the downloaded file. *)
Inductive captioning_raises (E : Env) (path : Path) (src msg : str) : Prop :=
  | raises_local (ip : Path) (f : Path -> outcome) :
      resolve_image_path E src path = Ok (Some ip) ->
      e_exists E ip = Some true ->
      e_caption_func E = Some f -> f ip = Raises msg ->
      captioning_raises E path src msg
  | raises_api (ip : Path) (t : str) :
      resolve_image_path E src path = Ok (Some ip) ->
      e_exists E ip = Some true ->
      e_caption_func E = None -> token_set E = Some t ->
      e_hf_api E (LocalFile ip) t = Raises msg ->
      captioning_raises E path src msg
  | raises_download (r : option Path) (t : str) :
      resolve_image_path E src path = Ok r ->
      path_exists E r = Ok false ->
      token_set E = Some t -> startswith (L "http") src = true ->
      e_http_get E src = Raises msg ->
      captioning_raises E path src msg
  | raises_remote_api (r : option Path) (t content : str) :
      resolve_image_path E src path = Ok r ->
      path_exists E r = Ok false ->
      token_set E = Some t -> startswith (L "http") src = true ->
      e_http_get E src = Returns content ->
      e_hf_api E (TempFile content) t = Raises msg ->
      captioning_raises E path src msg.

(** An image that a round of the loop finds again in [txt], captions
    and, in apply mode, does not change. *)
Definition keeps (E : Env) (path : Path) (apply : bool) (txt : str)
    (img : image) : Prop :=
  (exists m, find_again (img_kind img) txt (img_start img) = Some m)
  /\ captioned E path (img_src img) = true
  /\ (apply = true -> settled E path txt img = true).

(** [l] is [l'] with some elements left out. *)
Inductive subseq {A : Type} : list A -> list A -> Prop :=
  | subseq_nil : subseq [] []
  | subseq_skip (x : A) (l l' : list A) : subseq l l' -> subseq l (x :: l')
  | subseq_take (x : A) (l l' : list A) :
      subseq l l' -> subseq (x :: l) (x :: l').

(** The kind and source of an image and of a report row. *)
Definition image_key (i : image) : kind * str := (img_kind i, img_src i).
Definition row_key (c : ChangeRecord) : kind * str := (c_kind c, c_src c).

(** Two apply runs in a row leave the text the first run wrote. *)
Definition second_run_is_noop (E : Env) (w : World) (path : Path) : Prop :=
  forall c1 w1 c2 w2,
    process_file E w path true = Ok (c1, w1) ->
    process_file E w1 path true = Ok (c2, w2) ->
    read_text (w_docs w2) path = read_text (w_docs w1) path.

(** Every image of the document carries its caption as alt text: the
    report shows the same old and new text in each row. *)
Definition carries_captions (E : Env) (w : World) (path : Path) : Prop :=
  exists cs w', process_file E w path false = Ok (cs, w')
    /\ cs <> []
    /\ Forall (fun c => c_old_alt c = c_caption c /\ c_caption c <> []) cs.


(** A Markdown reference with a title: [![alt](src Qtitle Q)], the title
    between double quotes after one blank. *)
Definition md_reference (alt src title : str) : str :=
  L "![" ++ alt ++ L "](" ++ src ++ L " " ++ q title ++ L ")".

(** The parts of a reference that the pattern delimits: no closing
    bracket in the alt text, a source that is not empty and has neither a
    closing parenthesis nor a blank, no double quote in the title. *)
Definition well_formed_reference (alt src title : str) : Prop :=
  forallb (not_in ["]"%char]) alt = true
  /\ src <> []
  /\ forallb (not_in [")"%char; " "%char]) src = true
  /\ forallb (not_in [dq]) title = true.

(** An apply run that writes nothing: the stored documents are the same
    afterwards, the document still reads [txt], and the report has a row
    for every located image, in order. *)
Definition left_unchanged (E : Env) (w : World) (path : Path) (txt : str)
    : Prop :=
  exists rows w',
    process_file E w path true = Ok (rows, w')
    /\ w_docs w' = w_docs w
    /\ read_text (w_docs w') path = Some txt
    /\ map row_key rows = map image_key (find_images_in_markdown txt).

(** What a round of the apply loop does with the placeholder of a failed
    captioning: the placeholder is not empty, so the rewrite is run with
    it as caption.  The new text is spelled out for a Markdown image, for
    a tag without [alt], and for a tag with [alt] when the message has no
    backslash (every [alt] attribute of the tag then reads the
    placeholder). *)
Definition placeholder_written (E : Env) (path : Path) (st : lstate)
    (k : kind) (src : str) (p : nat) (m : rmatch) (msg : str) (w' : World)
    : Prop :=
  let cap := placeholder msg in
  let txt := l_txt st in
  let rows := l_changes st ++ [MkChange path k src (old_alt_of k txt m) cap] in
  let round := process_image E path true st (k, src, p) in
  cap <> []
  /\ round = (t <- rewrite k txt m cap src ;; Ok (LState t rows w'))
  /\ (k = md ->
      round = Ok (LState (firstn (m_start m) txt
                          ++ (L "![" ++ cap ++ L "](" ++ src ++ L ")")
                          ++ skipn (m_end m) txt) rows w'))
  /\ (k = html -> has_match ALT_RE (group txt m 0) = false ->
      round = Ok (LState (firstn (m_start m) txt
                          ++ (rstrip ">" (group txt m 0)
                              ++ L " alt=" ++ q cap ++ L ">")
                          ++ skipn (m_end m) txt) rows w'))
  /\ (k = html -> has_match ALT_RE (group txt m 0) = true ->
      forallb (fun c => negb (Ascii.eqb c bsl)) msg = true ->
      round = Ok (LState (firstn (m_start m) txt
                          ++ sub_matches (map TLit (L "alt=" ++ q cap))
                               (group txt m 0) 0
                               (finditer ALT_RE (group txt m 0))
                          ++ skipn (m_end m) txt) rows w')).

(** The caption alone decides whether a round of the apply loop rewrites
    an image it has found again: an empty caption leaves the text, any
    other caption is handed to the rewrite. *)
Definition caption_decides_rewrite (E : Env) (path : Path) (st : lstate)
    : Prop :=
  forall k src p m cap w',
    find_again k (l_txt st) p = Some m ->
    caption_image E path src (l_world st) = Ok (cap, w') ->
    let rows :=
      l_changes st ++ [MkChange path k src (old_alt_of k (l_txt st) m) cap] in
    (cap = [] ->
     process_image E path true st (k, src, p) = Ok (LState (l_txt st) rows w'))
    /\ (cap <> [] ->
        process_image E path true st (k, src, p)
        = (t <- rewrite k (l_txt st) m cap src ;; Ok (LState t rows w'))).

(** The kinds and sources of the images of a list of stored documents,
    document by document. *)
Definition located_keys (docs : list (Path * str)) (files : list Path)
    : list (kind * str) :=
  flat_map (fun f => match read_text docs f with
                     | Some t => map image_key (find_images_in_markdown t)
                     | None => []
                     end) files.

(** The report of a run: its rows without the world. *)
Definition report (r : result (list ChangeRecord * World))
    : option (list ChangeRecord) :=
  match r with
  | Ok (cs, _) => Some cs
  | Abort _ => None
  end.

(* ================================================================= *)
(** ** The command line entry point *)

(** Lines 217 to 225 of [main]: with a token that is set and not empty
    the local captioner is not built; [local] is what
    [get_captioner_local()] returns, [None] when it cannot be built. *)
Definition select_captioner (hf_token : option str)
    (local : option (Path -> outcome)) : option (Path -> outcome) :=
  match hf_token with
  | Some t => if truthy t then None else local
  | None => local
  end.

(** The environment [main] hands to [process_file]. *)
Definition main_env (ex : Path -> option bool) (wr : Path -> bool)
    (local : option (Path -> outcome)) (hf_token : option str)
    (api : fileref -> str -> outcome) (get : str -> outcome) : Env :=
  MkEnv ex wr (select_captioner hf_token local) hf_token api get.

Fixpoint join_with (sep : str) (ws : list str) : str :=
  match ws with
  | [] => []
  | [w] => w
  | w :: ws' => w ++ sep ++ join_with sep ws'
  end.

(** [str(path)] *)
Definition path_str (a : Path) : str :=
  match p_parts a with
  | [] => if p_abs a then L "/" else L "."
  | ws => (if p_abs a then L "/" else []) ++ join_with (L "/") ws
  end.

Definition kind_str (k : kind) : str :=
  match k with md => L "md" | html => L "html" end.

(** The rows [main] hands to the CSV writer: the header, then a row for
    every change. *)
Definition csv_rows (changes : list ChangeRecord) : list (list str) :=
  [L "file"; L "kind"; L "src"; L "old_alt"; L "ai_caption"]
  :: map (fun c => [path_str (c_path c); kind_str (c_kind c); c_src c;
                    c_old_alt c; c_caption c]) changes.

(** What a run of [main] leaves: the rows of the report, the number of
    images it prints, and the world. *)
Record Outcome : Type := MkOutcome {
  o_rows : list (list str);
  o_found : nat;
  o_world : World
}.

(** The default of [--report]. *)
Definition REPORT_CSV : Path := Path_of (L "alt_ai_report.csv").

(** [main()] on the sorted list [md_files] of the documents found, with
    [report_path] for [args.report]: the documents are processed, then
    the report is opened for writing, which can raise as any write can. *)
Definition main (ex : Path -> option bool) (wr : Path -> bool)
    (local : option (Path -> outcome)) (hf_token : option str)
    (api : fileref -> str -> outcome) (get : str -> outcome)
    (report_path : Path) (w : World) (md_files : list Path) (apply : bool)
    : result Outcome :=
  r <- process_all (main_env ex wr local hf_token api get) w md_files apply ;;
  if wr report_path
  then Ok (MkOutcome (csv_rows (fst r)) (List.length (fst r)) (snd r))
  else Abort os_error.

(* ================================================================= *)
(** ** More properties of the code *)

(** The least number of characters an expression consumes. *)
Fixpoint min_len (r : regex) : nat :=
  match r with
  | Lit _ | Cls _ | Plus _ => 1
  | Star _ | Opt _ | Bnd => 0
  | Cat r1 r2 => min_len r1 + min_len r2
  | Group _ r1 => min_len r1
  end.

(** The row a dry run writes for an image of [txt]. *)
Definition dry_row (E : Env) (path : Path) (txt : str) (img : image)
    : ChangeRecord :=
  MkChange path (img_kind img) (img_src img)
    (match find_again (img_kind img) txt (img_start img) with
     | Some m => old_alt_of (img_kind img) txt m
     | None => []
     end)
    (caption_text E path (img_src img)).


(** No character of [s] is [c]. *)
Definition free_of (c : ascii) (s : str) : bool :=
  forallb (fun x => negb (Ascii.eqb x c)) s.

(** Two environments that differ at most in the remote calls. *)
Definition same_local (E E' : Env) : Prop :=
  e_exists E = e_exists E'
  /\ e_writable E = e_writable E'
  /\ e_caption_func E = e_caption_func E'
  /\ e_token E = e_token E'.

(** The existence checks that captioning [src] can make all answer: the
    source is remote and none is made, or the check of every candidate
    answers. *)
Definition checks_answer (E : Env) (path : Path) (src : str) : bool :=
  is_remote (strip_query src)
  || forallb (fun c => match e_exists E c with
                       | Some _ => true
                       | None => false
                       end)
             (candidates (strip_query src) path).

(** The checks answer for every located image of [txt]. *)
Definition checks_answer_in (E : Env) (path : Path) (txt : str) : bool :=
  forallb (fun img => checks_answer E path (img_src img))
          (find_images_in_markdown txt).

(* ================================================================= *)
(** ** Worked documents *)

Definition doc_path : Path := Path_of (L "content/post.md").
Definition in_content (name : string) : Path := Path_of (L "content/" ++ L name).
Definition no_world : World := MkWorld [] [] 0.
Definition one_doc (txt : str) : World := MkWorld [(doc_path, txt)] [] 0.

Definition pets_exist (p : Path) : bool :=
  Path_eqb p (in_content "x.png") || Path_eqb p (in_content "y.png").

(** A file system whose existence checks all answer, as [f] says, and one
    on which every write succeeds. *)
Definition answering (f : Path -> bool) : Path -> option bool :=
  fun p => Some (f p).
Definition any_path : Path -> bool := fun _ => true.

(** A file system on which the check of a path with a component of more
    than 255 characters raises ([ENAMETOOLONG]). *)
Definition name_too_long (p : Path) : bool :=
  existsb (fun part => 255 <? List.length part) (p_parts p).
Definition bounded_names (f : Path -> bool) : Path -> option bool :=
  fun p => if name_too_long p then None else Some (f p).

(** A local captioner: [x.png] is a cat, anything else a dog. *)
Definition pets_env : Env :=
  MkEnv (answering pets_exist) any_path
        (Some (fun p => if Path_eqb p (in_content "x.png")
                        then Returns (L "cat") else Returns (L "dog")))
        None
        (fun _ _ => Raises (L "no token"))
        (fun _ => Raises (L "offline")).

(** Two Markdown images; the first has a long alt text. *)
Definition pets_text : str :=
  L "![a long description of the first picture](x.png) ![b](y.png)".

(** An HTML image in front of a Markdown image. *)
Definition mixed_text : str :=
  L "<img src=" ++ q (L "a.png") ++ L "> ![x](b.png)".

Definition cat_url : str := L "https://example.org/cat.png".

(** Only the remote strategy is set up; the download succeeds and the
    captioning call ends as [api] says. *)
Definition remote_env (api : outcome) : Env :=
  MkEnv (answering (fun _ => false)) any_path None (Some (L "hf_secret"))
        (fun _ _ => api)
        (fun _ => Returns (L "PNGDATA")).

(** The message of the [JSONDecodeError] that [resp.json()] raises on a
    response with a bad escape. *)
Definition json_msg : str := L "Invalid \escape: line 1 column 2 (char 1)".

(** The remote strategy on local files: the call for [x.png] raises. *)
Definition json_env : Env :=
  MkEnv (answering pets_exist) any_path None (Some (L "hf_secret"))
        (fun f _ =>
           match f with
           | LocalFile p =>
               if Path_eqb p (in_content "x.png") then Raises json_msg
               else Returns (L "dog")
           | TempFile _ => Raises (L "no download")
           end)
        (fun _ => Raises (L "offline")).

(** Two tags, the first with an [alt] attribute. *)
Definition tags_text : str :=
  L "<img src=" ++ q (L "x.png") ++ L " alt=" ++ q (L "old")
  ++ L "> <img src=" ++ q (L "y.png") ++ L ">".

Definition bare_tag : str := L "<img src=" ++ q (L "a.png") ++ L ">".
Definition old_tag : str :=
  L "<img src=" ++ q (L "a.png") ++ L " alt=" ++ q (L "old") ++ L ">".

(** A caption with a backslash followed by [n]. *)
Definition slash_caption : str := L "a\nb".

Definition quote_caption : str := L "a sign saying " ++ q (L "stop").

(** A captioner whose caption holds double quotes. *)
Definition quote_env : Env :=
  MkEnv (answering pets_exist) any_path
        (Some (fun _ => Returns quote_caption))
        None
        (fun _ _ => Raises (L "no token"))
        (fun _ => Raises (L "offline")).

Definition quote_text : str := L "<img src=" ++ q (L "x.png") ++ L ">".

(** The tag after one apply run, and after a second one. *)
Definition quote_once : str :=
  L "<img src=" ++ q (L "x.png") ++ L " alt=" ++ q quote_caption ++ L ">".
Definition quote_twice : str :=
  L "<img src=" ++ q (L "x.png") ++ L " alt=" ++ q quote_caption
  ++ L "stop" ++ [dq; dq] ++ L ">".

(** The world after an apply run that turned [old] into [new]. *)
Definition rewritten (old new : str) : World :=
  MkWorld [(doc_path, new); (bak_path doc_path, old)] [] 0.

Definition pets_row_x : ChangeRecord :=
  MkChange doc_path md (L "x.png")
           (L "a long description of the first picture") (L "cat").
Definition pets_row_y : ChangeRecord :=
  MkChange doc_path md (L "y.png") (L "b") (L "dog").

(** Two Markdown images, the second a reference with a title. *)
Definition titled_second_text : str :=
  L "![aaaaaaaaaaaa](x.png) " ++ md_reference (L "b") (L "y.png") (L "t").

(** Three Markdown images, the second a reference with a title. *)
Definition three_refs_text : str :=
  L "![long long alt text](x.png) "
  ++ md_reference (L "b") (L "y.png") (L "t") ++ L " ![c](z.png)".

(** An image whose file name has 300 characters before the suffix. *)
Definition long_name : str := repeat "a"%char 300 ++ L ".png".
Definition long_name_text : str := L "![logo](" ++ long_name ++ L ")".

(** The pets on a file system that rejects names of more than 255
    characters. *)
Definition bounded_env : Env :=
  MkEnv (bounded_names pets_exist) any_path
        (Some (fun _ => Returns (L "dog")))
        None
        (fun _ _ => Raises (L "no token"))
        (fun _ => Raises (L "offline")).

(** The pets in a directory in which no backup can be written. *)
Definition no_backup_env : Env :=
  MkEnv (answering pets_exist)
        (fun p => negb (Path_eqb p (bak_path doc_path)))
        (Some (fun _ => Returns (L "cat")))
        None
        (fun _ _ => Raises (L "no token"))
        (fun _ => Raises (L "offline")).

(** A Markdown image with a title whose alt text is already the caption. *)
Definition title_text : str := L "![cat](x.png " ++ q (L "My cat") ++ L ")".

(** A document in which both images are in the form the rewrite writes. *)
Definition settled_text : str :=
  L "![cat](x.png) and <img src=" ++ q (L "y.png") ++ L " alt=" ++ q (L "dog")
  ++ L ">".

(** A local captioner that cannot read [x.png]. *)
Definition broken_env : Env :=
  MkEnv (answering pets_exist) any_path
        (Some (fun p => if Path_eqb p (in_content "x.png")
                        then Raises (L "cannot identify image file")
                        else Returns (L "dog")))
        None
        (fun _ _ => Raises (L "no token"))
        (fun _ => Raises (L "offline")).

(** Only [static/img/a.png] exists. *)
Definition static_env : Env :=
  MkEnv (answering (fun p => Path_eqb p (Path_of (L "static/img/a.png"))))
        any_path None None
        (fun _ _ => Raises (L "no token"))
        (fun _ => Raises (L "offline")).

(* ================================================================= *)
(** * Lemmas *)

(** ** Strings and lists *)

Lemma str_eqb_eq (a b : str) : str_eqb a b = true <-> a = b.
Proof.
  unfold str_eqb; destruct (list_eq_dec ascii_dec a b); split; congruence.
Qed.

Lemma str_eqb_refl (a : str) : str_eqb a a = true.
Proof. now apply str_eqb_eq. Qed.

Lemma str_eqb_neq (a b : str) : str_eqb a b = false <-> a <> b.
Proof.
  unfold str_eqb; destruct (list_eq_dec ascii_dec a b); split; congruence.
Qed.

Lemma Ok_inj (A : Type) (a b : A) : Ok a = Ok b -> a = b.
Proof. congruence. Qed.


Unset Implicit Arguments.

Lemma skipn_cons_inv (txt : str) :
  forall p c rs, skipn p txt = c :: rs ->
    skipn (S p) txt = rs /\ nth_error txt p = Some c /\ p < List.length txt.
Proof.
  induction txt as [|x txt IH]; intros p c rs H.
  - destruct p; discriminate.
  - destruct p as [|p].
    + simpl in H. injection H as -> ->. simpl. repeat split. lia.
    + simpl in H. destruct (IH _ _ _ H) as (H1 & H2 & H3).
      repeat split; [exact H1 | exact H2 | simpl; lia].
Qed.

Lemma splice_same (txt : str) (a b : nat) :
  a <= b -> firstn a txt ++ slice txt a b ++ skipn b txt = txt.
Proof.
  intros Hab. unfold slice.
  replace (skipn b txt) with (skipn (b - a) (skipn a txt)).
  - rewrite firstn_skipn. apply firstn_skipn.
  - rewrite skipn_skipn. f_equal. lia.
Qed.

Lemma slice_app_mid (pre mid post : str) :
  slice (pre ++ mid ++ post) (List.length pre)
        (List.length pre + List.length mid) = mid.
Proof.
  unfold slice.
  rewrite skipn_app, skipn_all, Nat.sub_diag. simpl.
  replace (List.length pre + List.length mid - List.length pre)
    with (List.length mid) by lia.
  rewrite firstn_app, firstn_all, Nat.sub_diag. simpl. apply app_nil_r.
Qed.

(* ================================================================= *)
(** ** The matcher *)

Section Matcher.

Context {A : Type}.

(** A successful repetition ends in a successful continuation, at an
    offset that is not before the start. *)
Lemma star_bt_result (f : ascii -> bool) (rs : str) :
  forall p pv (k : nat -> str -> option ascii -> option A) x,
    star_bt f p rs pv k = Some x ->
    exists q rs' pv', p <= q /\ k q rs' pv' = Some x.
Proof.
  induction rs as [|c rs IH]; intros p pv k x H; simpl in H.
  - exists p, [], pv. split; [lia | exact H].
  - destruct (f c).
    + destruct (star_bt f (S p) rs (Some c) k) eqn:Hs.
      * injection H as ->.
        destruct (IH _ _ _ _ Hs) as (q & rs' & pv' & Hq & Hk).
        exists q, rs', pv'. split; [lia | exact Hk].
      * exists p, (c :: rs), pv. split; [lia | exact H].
    + exists p, (c :: rs), pv. split; [lia | exact H].
Qed.

Lemma bt_result (ic : bool) (r : regex) :
  forall st (k : mstate -> option A) x,
    bt ic r st k = Some x ->
    exists st', pos st <= pos st' /\ k st' = Some x.
Proof.
  induction r as [c|f|f|f|r1 IH1 r2 IH2|r1 IH1|n r1 IH1|];
    intros st k x H; simpl in H.
  - destruct (rest st) as [|y rs]; [discriminate|].
    destruct (chr_eq ic c y); [|discriminate].
    exists (advance st y rs). split; [simpl; lia | exact H].
  - destruct (rest st) as [|y rs]; [discriminate|].
    destruct (f y); [|discriminate].
    exists (advance st y rs). split; [simpl; lia | exact H].
  - apply star_bt_result in H. destruct H as (q & rs' & pv' & Hq & Hk).
    eexists. split; [|exact Hk]. exact Hq.
  - destruct (rest st) as [|y rs]; [discriminate|].
    destruct (f y); [|discriminate].
    apply star_bt_result in H. destruct H as (q & rs' & pv' & Hq & Hk).
    eexists. split; [|exact Hk]. simpl. lia.
  - apply IH1 in H. destruct H as (st1 & H1 & H).
    apply IH2 in H. destruct H as (st2 & H2 & H).
    exists st2. split; [lia | exact H].
  - destruct (bt ic r1 st k) eqn:Hb.
    + injection H as ->. apply IH1 in Hb. exact Hb.
    + exists st. split; [lia | exact H].
  - apply IH1 in H. destruct H as (st1 & H1 & H).
    eexists. split; [|exact H]. exact H1.
  - destruct (at_boundary st); [|discriminate].
    exists st. split; [lia | exact H].
Qed.

End Matcher.

(** A match starts where it was tried and does not end before. *)
Lemma match_at_span (P : pattern) pv p rs m :
  match_at P pv p rs = Some m -> m_start m = p /\ p <= m_end m.
Proof.
  unfold match_at. intros H.
  apply bt_result in H. destruct H as (st & Hp & H).
  injection H as <-. simpl in *. split; [reflexivity | exact Hp].
Qed.

Lemma search_from_here (P : pattern) pv p rs m :
  match_at P pv p rs = Some m -> search_from P pv p rs = Some m.
Proof. intros H. destruct rs; simpl; rewrite H; reflexivity. Qed.

Lemma search_at_match (P : pattern) (txt : str) (m : rmatch) :
  m_start m <= List.length txt ->
  match_at P (prev_char txt (m_start m)) (m_start m) (skipn (m_start m) txt)
    = Some m ->
  search P txt (m_start m) = Some m.
Proof.
  intros Hle H. unfold search.
  rewrite Nat.min_l by exact Hle. apply search_from_here, H.
Qed.

(** ** The scan of [finditer] *)

Section Scan.

Variable P : pattern.
Variable txt : str.

(** Every match of the scan is the match found at its own offset. *)
Lemma finditer_from_found :
  forall rs p pv skip m,
    rs = skipn p txt -> pv = prev_char txt p -> p <= List.length txt ->
    In m (finditer_from P pv p rs skip) ->
    m_start m <= List.length txt
    /\ match_at P (prev_char txt (m_start m)) (m_start m)
         (skipn (m_start m) txt) = Some m.
Proof.
  induction rs as [|c rs IH]; intros p pv skip m Hrs Hpv Hp Hin.
  - destruct skip; simpl in Hin; [|contradiction].
    destruct (match_at P pv p []) as [m0|] eqn:Hm; [|contradiction].
    destruct Hin as [<-|[]].
    destruct (match_at_span _ _ _ _ _ Hm) as [Hs _].
    rewrite Hs, <- Hrs, <- Hpv. split; [exact Hp | exact Hm].
  - symmetry in Hrs.
    destruct (skipn_cons_inv _ _ _ _ Hrs) as (Hrs' & Hnth & Hlt).
    assert (Hstep : forall k, In m (finditer_from P (Some c) (S p) rs k) ->
              m_start m <= List.length txt
              /\ match_at P (prev_char txt (m_start m)) (m_start m)
                   (skipn (m_start m) txt) = Some m).
    { intros k. apply IH; [now symmetry | simpl; now symmetry | lia]. }
    destruct skip; simpl in Hin; [|now apply Hstep in Hin].
    destruct (match_at P pv p (c :: rs)) as [m0|] eqn:Hm;
      [|now apply Hstep in Hin].
    destruct Hin as [<-|Hin]; [|now apply Hstep in Hin].
    destruct (match_at_span _ _ _ _ _ Hm) as [Hs _].
    rewrite Hs, Hrs, <- Hpv. split; [exact Hp | exact Hm].
Qed.


Lemma finditer_search (m : rmatch) :
  In m (finditer P txt) -> search P txt (m_start m) = Some m.
Proof.
  intros Hin.
  destruct (finditer_from_found txt 0 None 0 m eq_refl eq_refl (Nat.le_0_l _) Hin)
    as [Hle Hm].
  now apply search_at_match.
Qed.


End Scan.

(* ================================================================= *)
(** ** The locator *)



(** Every located image is found again, from its recorded offset, in the
    text it was located in. *)
Lemma located_found_again (text : str) (img : image) :
  In img (find_images_in_markdown text) ->
  exists m, find_again (img_kind img) text (img_start img) = Some m
            /\ m_start m = img_start img.
Proof.
  unfold find_images_in_markdown. intros H.
  apply in_app_or in H. destruct H as [H|H].
  - apply in_map_iff in H. destruct H as (m & <- & Hm).
    exists m. split; [|reflexivity]. simpl. now apply finditer_search.
  - apply in_flat_map in H. destruct H as (m & Hm & H).
    unfold html_image in H. destruct (search SRC_RE _ 0); [|contradiction].
    destruct H as [<-|[]].
    exists m. split; [|reflexivity]. simpl. now apply finditer_search.
Qed.


(** Tags are matched without regard to case, with either quote. *)
Example upper_case_tag_located :
  find_images_in_markdown (L "<IMG SRC='u.png'> and <Img data-src='v.png'>")
  = [(html, L "u.png", 0); (html, L "v.png", 22)].
Proof. vm_compute. reflexivity. Qed.


(* ================================================================= *)
(** ** The path resolver *)

Lemma startswith_before (p : str) (c : ascii) :
  ~ In c p -> forall s, startswith p (before c s) = startswith p s.
Proof.
  induction p as [|a p IH]; intros Hc s; [reflexivity|].
  destruct s as [|x s]; [reflexivity|]. simpl.
  destruct (Ascii.eqb x c) eqn:Hx.
  - apply Ascii.eqb_eq in Hx. subst x.
    destruct (Ascii.eqb a c) eqn:Ha; [|reflexivity].
    apply Ascii.eqb_eq in Ha. subst a. exfalso. apply Hc. now left.
  - simpl. rewrite IH; [reflexivity|]. intros H. apply Hc. now right.
Qed.

(** Stripping the query and the fragment does not change whether a source
    begins with a network scheme. *)
Lemma is_remote_strip_query (src : str) :
  is_remote (strip_query src) = is_remote src.
Proof.
  unfold is_remote, strip_query.
  rewrite !startswith_before; [reflexivity|..];
    simpl; intuition discriminate.
Qed.




Example resolve_static_candidate :
  resolve_image_path static_env (L "img/a.png?v=2") doc_path
  = Ok (Some (Path_of (L "static/img/a.png"))).
Proof. reflexivity. Qed.

Example resolve_missing_is_first_candidate :
  resolve_image_path static_env (L "/logo.svg#top") doc_path
  = Ok (Some (Path_of (L "static/logo.svg"))).
Proof. reflexivity. Qed.

(* ================================================================= *)
(** ** Rewriting a Markdown reference *)

(** When the class accepts all of [xs] and cannot go on, and the
    continuation succeeds after [xs], no character is given back. *)
Lemma star_bt_greedy {A : Type} (f : ascii -> bool) (xs : str) :
  forall p pv ys (k : nat -> str -> option ascii -> option A) r,
    forallb f xs = true -> stops f ys ->
    k (p + List.length xs) ys (last_seen pv xs) = Some r ->
    star_bt f p (xs ++ ys) pv k = Some r.
Proof.
  induction xs as [|x xs IH]; intros p pv ys k r Hall Hstop Hk; simpl in *.
  - rewrite Nat.add_0_r in Hk. destruct ys as [|y ys]; simpl; [exact Hk|].
    rewrite Hstop. exact Hk.
  - apply andb_prop in Hall. destruct Hall as [Hx Hall]. rewrite Hx.
    rewrite (IH (S p) (Some x) ys k r Hall Hstop); [reflexivity|].
    rewrite <- Hk. f_equal. lia.
Qed.

Lemma md_reference_chars (alt src title post : str) :
  md_reference alt src title ++ post
  = "!"%char :: "["%char :: alt ++ "]"%char :: "("%char :: src
    ++ " "%char :: dq :: title ++ dq :: ")"%char :: post.
Proof.
  unfold md_reference, q. simpl.
  repeat (rewrite <- app_assoc; simpl). reflexivity.
Qed.

Lemma md_reference_length (alt src title : str) :
  List.length (md_reference alt src title)
  = 8 + List.length alt + List.length src + List.length title.
Proof.
  unfold md_reference, q. simpl.
  repeat (rewrite length_app; simpl). lia.
Qed.

(** The pattern matches a well-formed reference with a title from its
    first to its last character, whatever follows; group 1 is the alt
    text and group 2 the source. *)
Lemma md_reference_match (alt src title post : str) pv p :
  well_formed_reference alt src title ->
  match_at MD_IMG_RE pv p (md_reference alt src title ++ post)
  = Some (RMatch p (p + List.length (md_reference alt src title))
            [(2, (p + 4 + List.length alt,
                  p + 4 + List.length alt + List.length src));
             (1, (p + 2, p + 2 + List.length alt))]).
Proof.
  intros (Halt & Hne & Hsrc & Htitle).
  rewrite md_reference_chars, md_reference_length.
  destruct src as [|s0 src]; [contradiction|]. clear Hne.
  simpl in Hsrc. apply andb_prop in Hsrc. destruct Hsrc as [Hs0 Hsrc].
  unfold match_at. simpl.
  apply star_bt_greedy; [exact Halt | reflexivity |]. simpl.
  rewrite Hs0.
  apply star_bt_greedy; [exact Hsrc | reflexivity |]. simpl.
  match goal with |- match ?t with _ => _ end = _ =>
    assert (Hopt : t = Some (RMatch p (p + (8 + List.length alt + S (List.length src) + List.length title))
            [(2, (p + 4 + List.length alt,
                  p + 4 + List.length alt + S (List.length src)));
             (1, (p + 2, p + 2 + List.length alt))])) end.
  { apply star_bt_greedy; [exact Htitle | reflexivity |]. simpl.
    f_equal. f_equal; [lia|]. repeat f_equal; lia. }
  rewrite Hopt. reflexivity.
Qed.

Lemma slice_at (txt pre mid post : str) (a b : nat) :
  txt = pre ++ mid ++ post -> a = List.length pre ->
  b = a + List.length mid -> slice txt a b = mid.
Proof. intros -> -> ->. apply slice_app_mid. Qed.

Lemma finditer_from_hit (P : pattern) pv p rs m :
  match_at P pv p rs = Some m ->
  exists tl, finditer_from P pv p rs 0 = m :: tl.
Proof.
  intros H. destruct rs; simpl; rewrite H; eexists; reflexivity.
Qed.

Lemma search_after_prefix (P : pattern) (pre rs : str) (m : rmatch) :
  match_at P (prev_char (pre ++ rs) (List.length pre)) (List.length pre) rs
    = Some m ->
  search P (pre ++ rs) (List.length pre) = Some m.
Proof.
  intros H. unfold search.
  rewrite Nat.min_l by (rewrite length_app; lia).
  rewrite skipn_app, skipn_all, Nat.sub_diag. simpl.
  apply search_from_here, H.
Qed.

Lemma splice_app (pre mid post new : str) (m : rmatch) :
  m_start m = List.length pre ->
  m_end m = List.length pre + List.length mid ->
  splice (pre ++ mid ++ post) m new = pre ++ new ++ post.
Proof.
  intros Hs He. unfold splice. rewrite Hs, He.
  rewrite firstn_app, firstn_all, Nat.sub_diag. simpl. rewrite app_nil_r.
  f_equal. f_equal.
  rewrite skipn_app.
  replace (List.length pre + List.length mid - List.length pre)
    with (List.length mid) by lia.
  rewrite (skipn_all2 pre) by lia. simpl.
  rewrite skipn_app, skipn_all, Nat.sub_diag. reflexivity.
Qed.

(** One round of the apply loop, started at the offset the reference has
    in the text the round sees: a Markdown reference
    [![alt](src Qtitle Q)] is located with its source [src], and for a
    caption [C] that is not empty the round replaces the whole reference,
    title included, by [![C](src)]; the text before and after it, and the
    source, are unchanged.  In a whole run the offset is the one of the
    text as it was read, which earlier rewrites make stale. *)
Lemma markdown_title_rewrite (E : Env) (path : Path) (w w' : World)
    (chg : list ChangeRecord) (pre post alt src title C : str) :
  well_formed_reference alt src title ->
  C <> [] ->
  caption_image E path src w = Ok (C, w') ->
  hd_error (find_images_in_markdown (md_reference alt src title ++ post))
    = Some (md, src, 0)
  /\ process_image E path true
       (LState (pre ++ md_reference alt src title ++ post) chg w)
       (md, src, List.length pre)
     = Ok (LState (pre ++ (L "![" ++ C ++ L "](" ++ src ++ L ")") ++ post)
                  (chg ++ [MkChange path md src alt C]) w').
Proof.
  intros Hwf HC Hcap. split.
  - unfold find_images_in_markdown, finditer.
    destruct (finditer_from_hit _ _ _ _ _
                (md_reference_match alt src title post None 0 Hwf)) as [tl ->].
    simpl. f_equal. unfold md_image. simpl. f_equal. f_equal.
    apply slice_at with (pre := L "![" ++ alt ++ L "](")
                        (post := L " " ++ q title ++ L ")" ++ post).
    + unfold md_reference. repeat (rewrite <- app_assoc; simpl). reflexivity.
    + rewrite !length_app. simpl. lia.
    + lia.
  - unfold process_image. cbn [find_again l_txt l_world l_changes].
    rewrite (search_after_prefix _ _ _ _
               (md_reference_match alt src title post _ (List.length pre) Hwf)).
    rewrite Hcap. cbn [bind].
    destruct C as [|c0 C]; [contradiction|]. cbn [andb truthy].
    unfold rewrite, bind, md_markup. f_equal. f_equal.
    + apply splice_app; reflexivity.
    + f_equal. f_equal. unfold old_alt_of, group. simpl lookup_cap. cbv iota.
      f_equal.
      apply slice_at with (pre := pre ++ L "![")
                          (post := L "](" ++ src ++ L " " ++ q title ++ L ")" ++ post).
      * unfold md_reference. repeat (rewrite <- app_assoc; simpl). reflexivity.
      * rewrite length_app. simpl. lia.
      * lia.
Qed.

(** The lemma at [![old](x.png QMy cat Q)] between two words, captioned
    [cat]. *)
Lemma markdown_title_rewrite_witness :
  well_formed_reference (L "old") (L "x.png") (L "My cat")
  /\ L "cat" <> []
  /\ caption_image pets_env doc_path (L "x.png") no_world
     = Ok (L "cat", no_world)
  /\ hd_error (find_images_in_markdown
                 (md_reference (L "old") (L "x.png") (L "My cat") ++ L " above"))
     = Some (md, L "x.png", 0)
  /\ process_image pets_env doc_path true
       (LState (L "See " ++ md_reference (L "old") (L "x.png") (L "My cat")
                ++ L " above") [] no_world)
       (md, L "x.png", List.length (L "See "))
     = Ok (LState (L "See " ++ (L "![" ++ L "cat" ++ L "](" ++ L "x.png" ++ L ")")
                   ++ L " above")
                  ([] ++ [MkChange doc_path md (L "x.png") (L "old") (L "cat")])
                  no_world).
Proof.
  assert (Hwf : well_formed_reference (L "old") (L "x.png") (L "My cat")).
  { repeat split; try reflexivity. discriminate. }
  assert (HC : L "cat" <> []) by discriminate.
  assert (Hcap : caption_image pets_env doc_path (L "x.png") no_world
                 = Ok (L "cat", no_world)) by reflexivity.
  split; [exact Hwf|]. split; [exact HC|]. split; [exact Hcap|].
  exact (markdown_title_rewrite pets_env doc_path no_world no_world []
           (L "See ") (L " above") (L "old") (L "x.png") (L "My cat") (L "cat")
           Hwf HC Hcap).
Defined.

(** A whole apply run on a document that is one such reference: the
    title goes, the source stays, and the old text is backed up. *)
Example title_dropped_by_apply_run :
  process_file pets_env (one_doc title_text) doc_path true
  = Ok ([MkChange doc_path md (L "x.png") (L "cat") (L "cat")],
        MkWorld [(doc_path, L "![cat](x.png)");
                 (bak_path doc_path, title_text)] [] 0).
Proof. vm_compute. reflexivity. Qed.

(* ================================================================= *)
(** ** Captioning *)

(** The shape of a captioning: the resolver and the check answer, and
    the caption is the one of the [try] blocks; or one of them raises. *)
Lemma caption_image_cases (E : Env) (path : Path) (src : str) :
  (exists e, forall w, caption_image E path src w = Abort e)
  \/ (exists r ex,
        resolve_image_path E src path = Ok r /\ path_exists E r = Ok ex
        /\ forall w, exists c w', caption_image E path src w = Ok (c, w')
             /\ w_docs w' = w_docs w
             /\ c = caption_text E path src).
Proof.
  unfold caption_text, caption_image.
  destruct (resolve_image_path E src path) as [r|e] eqn:Hr; cbn [bind];
    [|left; now exists e].
  destruct (path_exists E r) as [ex|e] eqn:Hex; cbn [bind];
    [|left; now exists e].
  right. exists r, ex. split; [reflexivity|]. split; [exact Hex|].
  intros w. eexists (fst _), (snd _).
  split; [rewrite <- surjective_pairing; reflexivity|].
  unfold caption_remote, create_temp, unlink.
  destruct ex;
    [destruct r, (e_caption_func E), (token_set E); split; reflexivity|].
  destruct (token_set E); [|split; reflexivity].
  destruct (startswith _ src); [|split; reflexivity].
  destruct (e_http_get E src); [|split; reflexivity].
  destruct (e_hf_api E _ _); split; reflexivity.
Qed.

(** Captioning never touches the stored documents. *)
Lemma caption_image_docs (E : Env) (path : Path) (src : str) (w w' : World)
    (c : str) :
  caption_image E path src w = Ok (c, w') -> w_docs w' = w_docs w.
Proof.
  intros H. destruct (caption_image_cases E path src) as [[e He] | (r & ex & _ & _ & Hw)].
  - rewrite He in H. discriminate.
  - destruct (Hw w) as (c0 & w0 & H0 & Hd & _). rewrite H0 in H.
    injection H as _ <-. exact Hd.
Qed.

(** The caption does not depend on the world. *)
Lemma caption_image_text (E : Env) (path : Path) (src : str) (w w' : World)
    (c : str) :
  caption_image E path src w = Ok (c, w') -> c = caption_text E path src.
Proof.
  intros H. destruct (caption_image_cases E path src) as [[e He] | (r & ex & _ & _ & Hw)].
  - rewrite He in H. discriminate.
  - destruct (Hw w) as (c0 & w0 & H0 & _ & Hc). rewrite H0 in H.
    injection H as <- _. exact Hc.
Qed.

(** Whether captioning answers does not depend on the world either. *)
Lemma captioned_answers (E : Env) (path : Path) (src : str) (w : World) :
  captioned E path src = true ->
  exists w', caption_image E path src w = Ok (caption_text E path src, w')
             /\ w_docs w' = w_docs w.
Proof.
  unfold captioned. intros H.
  destruct (caption_image_cases E path src) as [[e He] | (r & ex & _ & _ & Hw)].
  - rewrite He in H. discriminate.
  - destruct (Hw w) as (c0 & w0 & H0 & Hd & Hc). subst c0.
    exists w0. now split.
Qed.

Lemma answers_captioned (E : Env) (path : Path) (src : str) (w w' : World)
    (c : str) :
  caption_image E path src w = Ok (c, w') -> captioned E path src = true.
Proof.
  intros H. unfold captioned.
  destruct (caption_image_cases E path src) as [[e He] | (r & ex & _ & _ & Hw)].
  - rewrite He in H. discriminate.
  - destruct (Hw (MkWorld [] [] 0)) as (c0 & w0 & H0 & _). now rewrite H0.
Qed.

(** When the checks of the candidates answer, the resolver and the check
    of line 162 answer, and so does captioning. *)
Lemma first_existing_answers (E : Env) (cs : list Path) :
  forallb (fun c => match e_exists E c with
                    | Some _ => true
                    | None => false
                    end) cs = true ->
  (exists c, first_existing E cs = Ok (Some c) /\ In c cs)
  \/ first_existing E cs = Ok None.
Proof.
  induction cs as [|c cs IH]; simpl; intros H; [now right|].
  apply andb_prop in H. destruct H as [Hc Hcs]. unfold Path_exists.
  destruct (e_exists E c) as [[|]|]; [| |discriminate]; simpl.
  - left. exists c. split; [reflexivity | now left].
  - destruct (IH Hcs) as [(c0 & H0 & Hin) | H0].
    + left. exists c0. split; [exact H0 | now right].
    + now right.
Qed.

Lemma checks_answer_captioned (E : Env) (path : Path) (src : str) :
  checks_answer E path src = true -> captioned E path src = true.
Proof.
  unfold checks_answer, captioned, caption_image, resolve_image_path.
  destruct (is_remote (strip_query src)); simpl; [reflexivity|].
  intros H. pose proof H as Hall. rewrite forallb_forall in Hall.
  assert (Hex : forall c, In c (candidates (strip_query src) path) ->
            exists b, path_exists E (Some c) = Ok b).
  { intros c Hin. specialize (Hall c Hin). simpl. unfold Path_exists.
    destruct (e_exists E c) as [b|]; [now exists b | discriminate]. }
  destruct (first_existing_answers E _ H) as [(c & -> & Hin) | ->]; simpl.
  - destruct (Hex c Hin) as [b Hb]. simpl in Hb. now rewrite Hb.
  - destruct (candidates (strip_query src) path) as [|c cs] eqn:Hcs;
      [reflexivity|]. simpl.
    destruct (Hex c (or_introl eq_refl)) as [b Hb]. simpl in Hb.
    now rewrite Hb.
Qed.

Lemma checks_answer_total (E : Env) (path : Path) (src : str) :
  (forall p, e_exists E p <> None) -> checks_answer E path src = true.
Proof.
  intros H. unfold checks_answer. apply orb_true_iff. right.
  apply forallb_forall. intros c _. specialize (H c).
  now destruct (e_exists E c).
Qed.

(** Wherever captioning raises, the caption is the placeholder that
    carries the message. *)
Lemma raises_gives_placeholder (E : Env) (path : Path) (src msg : str)
    (w : World) :
  captioning_raises E path src msg ->
  exists w', caption_image E path src w = Ok (placeholder msg, w').
Proof.
  intros [ip f Hr He Hf Hm | ip t Hr He Hf Ht Hm | r t Hr Hp Ht Hs Hm
         | r t content Hr Hp Ht Hs Hg Hm];
    unfold caption_image, caption_remote; rewrite Hr; cbn [bind path_exists].
  - unfold Path_exists. rewrite He. cbn [bind]. rewrite Hf, Hm. now eexists.
  - unfold Path_exists. rewrite He. cbn [bind]. rewrite Hf, Ht, Hm.
    now eexists.
  - rewrite Hp. cbn [bind]. rewrite Ht, Hs, Hm. now eexists.
  - rewrite Hp. cbn [bind]. rewrite Ht, Hs, Hg. simpl. rewrite Hm.
    now eexists.
Qed.

Lemma raises_caption_text (E : Env) (path : Path) (src msg : str) :
  captioning_raises E path src msg ->
  captioned E path src = true /\ caption_text E path src = placeholder msg.
Proof.
  intros Hr.
  destruct (raises_gives_placeholder E path src msg (MkWorld [] [] 0) Hr)
    as [w' Hc].
  split; [exact (answers_captioned _ _ _ _ _ _ Hc)|].
  symmetry. exact (caption_image_text _ _ _ _ _ _ Hc).
Qed.

Lemma placeholder_not_empty (msg : str) : placeholder msg <> [].
Proof. discriminate. Qed.

(* ================================================================= *)
(** ** Rounds of the loop that leave the text as it is *)

Lemma search_from_span (P : pattern) :
  forall rs pv p m, search_from P pv p rs = Some m -> m_start m <= m_end m.
Proof.
  induction rs as [|c rs IH]; intros pv p m H; simpl in H;
    destruct (match_at P pv p _) as [m0|] eqn:Hm.
  - injection H as <-. destruct (match_at_span _ _ _ _ _ Hm). lia.
  - discriminate.
  - injection H as <-. destruct (match_at_span _ _ _ _ _ Hm). lia.
  - eapply IH, H.
Qed.

Lemma find_again_span (k : kind) (txt : str) (p : nat) (m : rmatch) :
  find_again k txt p = Some m -> m_start m <= m_end m.
Proof. destruct k; apply search_from_span. Qed.

Lemma splice_whole (txt : str) (m : rmatch) :
  m_start m <= m_end m -> splice txt m (group txt m 0) = txt.
Proof. intros H. unfold splice, group. now apply splice_same. Qed.

(** The rewrite of a settled image gives back the text. *)
Lemma settled_rewrite (E : Env) (path : Path) (txt : str) (img : image)
    (m : rmatch) :
  find_again (img_kind img) txt (img_start img) = Some m ->
  settled E path txt img = true ->
  truthy (caption_text E path (img_src img)) = true ->
  rewrite (img_kind img) txt m (caption_text E path (img_src img)) (img_src img)
  = Ok txt.
Proof.
  intros Hm Hs Hc. unfold settled in Hs. rewrite Hm, Hc in Hs.
  apply andb_prop in Hs. destruct Hs as [_ Hs].
  cbn [negb orb] in Hs.
  pose proof (splice_whole txt m (find_again_span _ _ _ _ Hm)) as Hw.
  unfold rewrite. destruct (img_kind img).
  - apply str_eqb_eq in Hs. rewrite <- Hs, Hw. reflexivity.
  - apply andb_prop in Hs. destruct Hs as [Ha Hs].
    unfold new_tag. rewrite Ha.
    destruct (sub ALT_RE _ _) as [t|]; [|discriminate].
    apply str_eqb_eq in Hs. subst t. unfold bind. rewrite Hw. reflexivity.
Qed.

Section Unchanged.

Variable E : Env.
Variable path : Path.
Variable apply : bool.
Variable txt : str.

Lemma process_image_keeps (chg : list ChangeRecord) (w : World) (img : image) :
  keeps E path apply txt img ->
  exists c w',
    process_image E path apply (LState txt chg w) img
      = Ok (LState txt (chg ++ [c]) w')
    /\ row_key c = image_key img
    /\ c_caption c = caption_text E path (img_src img)
    /\ w_docs w' = w_docs w.
Proof.
  intros ([m Hm] & Hc & Hs). destruct img as [[k src] p].
  unfold process_image. cbn [l_txt l_changes l_world].
  change (find_again k txt p) with
    (find_again (img_kind (k, src, p)) txt (img_start (k, src, p))).
  rewrite Hm.
  destruct (captioned_answers E path src w Hc) as (w' & -> & Hd).
  cbn [bind]. clear Hc.
  exists (MkChange path k src (old_alt_of k txt m) (caption_text E path src)), w'.
  split; [|repeat split; exact Hd].
  destruct (apply && truthy (caption_text E path src)) eqn:Hb; [|reflexivity].
  apply andb_prop in Hb. destruct Hb as [Ha Hc].
  pose proof (settled_rewrite E path txt (k, src, p) m Hm (Hs Ha) Hc) as Hr.
  cbn [img_kind img_src fst snd] in Hr. rewrite Hr. reflexivity.
Qed.

Lemma process_images_keep (images : list image) :
  Forall (keeps E path apply txt) images ->
  forall chg w,
  exists rows w',
    process_images E path apply (LState txt chg w) images
      = Ok (LState txt (chg ++ rows) w')
    /\ map row_key rows = map image_key images
    /\ map c_caption rows
       = map (fun i => caption_text E path (img_src i)) images
    /\ w_docs w' = w_docs w.
Proof.
  induction 1 as [|img images Hk _ IH]; intros chg w.
  - exists [], w. rewrite app_nil_r. repeat split.
  - destruct (process_image_keeps chg w img Hk) as (c & w1 & Hp & Hkey & Hcap & Hd).
    destruct (IH (chg ++ [c]) w1) as (rows & w2 & Hps & Hkeys & Hcaps & Hd2).
    exists (c :: rows), w2. simpl. rewrite Hp. simpl. rewrite Hps.
    rewrite <- app_assoc. simpl.
    repeat split; [now rewrite Hkey, Hkeys | now rewrite Hcap, Hcaps
                  | now rewrite Hd2].
Qed.

End Unchanged.

(* ================================================================= *)
(** ** Whole runs on a document *)

Lemma located_keeps (E : Env) (path : Path) (apply : bool) (txt : str) :
  forallb (fun img => captioned E path (img_src img))
          (find_images_in_markdown txt) = true ->
  (apply = true ->
   forallb (settled E path txt) (find_images_in_markdown txt) = true) ->
  Forall (keeps E path apply txt) (find_images_in_markdown txt).
Proof.
  intros Hc Hs. apply Forall_forall. intros img Hin. split; [|split].
  - destruct (located_found_again txt img Hin) as (m & Hm & _). now exists m.
  - rewrite forallb_forall in Hc. now apply Hc.
  - intros Ha. specialize (Hs Ha).
    rewrite forallb_forall in Hs. now apply Hs.
Qed.

(** A located image that is settled has a caption. *)
Lemma settled_captioned (E : Env) (path : Path) (txt : str) :
  forallb (settled E path txt) (find_images_in_markdown txt) = true ->
  forallb (fun img => captioned E path (img_src img))
          (find_images_in_markdown txt) = true.
Proof.
  rewrite !forallb_forall. intros Hs img Hin.
  specialize (Hs img Hin). unfold settled in Hs.
  destruct (located_found_again txt img Hin) as (m & Hm & _).
  rewrite Hm in Hs. apply andb_prop in Hs. exact (proj1 Hs).
Qed.

Lemma checks_answer_in_captioned (E : Env) (path : Path) (txt : str) :
  checks_answer_in E path txt = true ->
  forallb (fun img => captioned E path (img_src img))
          (find_images_in_markdown txt) = true.
Proof.
  unfold checks_answer_in. rewrite !forallb_forall. intros H img Hin.
  apply checks_answer_captioned, H, Hin.
Qed.

(** When the existence checks for its images answer, a dry run writes no
    document and reports every located image, in the locator's order,
    with the caption computed for its source. *)
Lemma dry_run_reports_every_image (E : Env) (w : World) (path : Path)
    (txt : str) :
  read_text (w_docs w) path = Some txt ->
  checks_answer_in E path txt = true ->
  exists rows w',
    process_file E w path false = Ok (rows, w')
    /\ w_docs w' = w_docs w
    /\ map row_key rows = map image_key (find_images_in_markdown txt)
    /\ map c_caption rows
       = map (fun i => caption_text E path (img_src i))
             (find_images_in_markdown txt).
Proof.
  intros Hread Hchk.
  destruct (process_images_keep E path false txt (find_images_in_markdown txt)
              (located_keeps E path false txt
                 (checks_answer_in_captioned E path txt Hchk)
                 (fun H => False_ind _ (Bool.diff_false_true H))) [] w)
    as (rows & w' & Hp & Hk & Hc & Hd).
  exists rows, w'. unfold process_file. rewrite Hread, Hp. simpl.
  repeat split; assumption.
Qed.

(** C8, amended: when every located image gets a caption (captioning it
    answers) and the caption is empty or the image is already in the form
    the rewrite produces for it (a Markdown reference that is exactly
    [![caption](src)], without title; a tag whose [alt] attributes the
    substitution of [alt=Qcaption Q] leaves as they are), an apply run
    changes neither the text nor the stored documents, and still reports
    every image. *)
Theorem settled_document_unchanged (E : Env) (w : World) (path : Path)
    (txt : str) :
  read_text (w_docs w) path = Some txt ->
  forallb (settled E path txt) (find_images_in_markdown txt) = true ->
  left_unchanged E w path txt.
Proof.
  intros Hread Hs.
  destruct (process_images_keep E path true txt (find_images_in_markdown txt)
              (located_keeps E path true txt (settled_captioned E path txt Hs)
                 (fun _ => Hs)) [] w)
    as (rows & w' & Hp & Hk & _ & Hd).
  exists rows, w'. unfold process_file. rewrite Hread, Hp. simpl.
  rewrite str_eqb_refl. simpl.
  repeat split; [exact Hd | now rewrite Hd | exact Hk].
Qed.

(** The theorem at a document with a Markdown image and a tag that both
    carry their captions in the form the rewrite writes. *)
Lemma settled_document_unchanged_witness :
  read_text (w_docs (one_doc settled_text)) doc_path = Some settled_text
  /\ forallb (settled pets_env doc_path settled_text)
             (find_images_in_markdown settled_text) = true
  /\ left_unchanged pets_env (one_doc settled_text) doc_path settled_text.
Proof.
  assert (Hread : read_text (w_docs (one_doc settled_text)) doc_path
                  = Some settled_text) by reflexivity.
  assert (Hs : forallb (settled pets_env doc_path settled_text)
                       (find_images_in_markdown settled_text) = true)
    by (vm_compute; reflexivity).
  split; [exact Hread|]. split; [exact Hs|].
  exact (settled_document_unchanged pets_env (one_doc settled_text) doc_path
           settled_text Hread Hs).
Defined.

(** C8, as stated, fails.  With a caption that holds double quotes the
    second apply run changes the text the first run wrote; and a Markdown
    image with a title whose alt text is already its caption is still
    rewritten. *)
Lemma second_run_changes_text :
  ~ second_run_is_noop quote_env (one_doc quote_text) doc_path
  /\ (carries_captions pets_env (one_doc title_text) doc_path
      /\ process_file pets_env (one_doc title_text) doc_path true
         = Ok ([MkChange doc_path md (L "x.png") (L "cat") (L "cat")],
               rewritten title_text (L "![cat](x.png)"))).
Proof.
  split.
  - intros H. unfold second_run_is_noop in H.
    pose (c1 := [MkChange doc_path html (L "x.png") [] quote_caption]).
    pose (c2 := [MkChange doc_path html (L "x.png") (L "a sign saying ")
                   quote_caption]).
    pose (w1 := rewritten quote_text quote_once).
    pose (w2 := rewritten quote_once quote_twice).
    assert (H1 : process_file quote_env (one_doc quote_text) doc_path true
                 = Ok (c1, w1)) by (vm_compute; reflexivity).
    assert (H2 : process_file quote_env w1 doc_path true = Ok (c2, w2))
      by (vm_compute; reflexivity).
    pose proof (H c1 w1 c2 w2 H1 H2) as Hsame.
    apply (f_equal (fun o => match o with
                             | Some t => str_eqb t quote_once
                             | None => false
                             end)) in Hsame.
    vm_compute in Hsame. discriminate.
  - split; [|vm_compute; reflexivity].
    exists [MkChange doc_path md (L "x.png") (L "cat") (L "cat")],
           (one_doc title_text).
    split; [vm_compute; reflexivity|]. split; [discriminate|].
    repeat constructor; discriminate.
Qed.

(* ================================================================= *)
(** ** Rows of a run in either mode *)

(** A round that ends: the image was not found again and nothing
    changed, or it was captioned, got its row and, in apply mode with a
    caption that is not empty, was rewritten. *)
Lemma process_image_inv (E : Env) (path : Path) (apply : bool)
    (st st' : lstate) (k : kind) (src : str) (p : nat) :
  process_image E path apply st (k, src, p) = Ok st' ->
  (find_again k (l_txt st) p = None /\ st' = st)
  \/ exists m cap w' t,
       find_again k (l_txt st) p = Some m
       /\ caption_image E path src (l_world st) = Ok (cap, w')
       /\ (if apply && truthy cap
           then rewrite k (l_txt st) m cap src = Ok t
           else t = l_txt st)
       /\ st' = LState t (l_changes st
                          ++ [MkChange path k src (old_alt_of k (l_txt st) m)
                                cap]) w'.
Proof.
  intros H. unfold process_image in H.
  destruct (find_again k (l_txt st) p) as [m|];
    [|left; split; [reflexivity | now injection H as <-]].
  right.
  destruct (caption_image E path src (l_world st)) as [[cap w']|e];
    [|discriminate].
  cbn [bind] in H. exists m, cap, w'.
  destruct (apply && truthy cap).
  - destruct (rewrite k (l_txt st) m cap src) as [t|e]; [|discriminate].
    cbn [bind] in H. exists t. injection H as <-. repeat split.
  - exists (l_txt st). injection H as <-. repeat split.
Qed.

(** A run on a document that ends: the rounds ended, and then either
    nothing was written, or the backup and the document were. *)
Lemma process_file_inv (E : Env) (w w' : World) (path : Path) (apply : bool)
    (txt : str) (rows : list ChangeRecord) :
  read_text (w_docs w) path = Some txt ->
  process_file E w path apply = Ok (rows, w') ->
  exists st,
    process_images E path apply (LState txt [] w) (find_images_in_markdown txt)
    = Ok st
    /\ rows = l_changes st
    /\ ((apply && negb (str_eqb (l_txt st) txt) = false /\ w' = l_world st)
        \/ (apply && negb (str_eqb (l_txt st) txt) = true
            /\ e_writable E (bak_path path) = true
            /\ e_writable E path = true
            /\ w' = put_text (put_text (l_world st) (bak_path path) txt) path
                             (l_txt st))).
Proof.
  intros Hread H. unfold process_file in H. rewrite Hread in H.
  destruct (process_images E path apply (LState txt [] w) _) as [st|e];
    [|discriminate].
  cbn [bind] in H. exists st. split; [reflexivity|].
  destruct (apply && negb (str_eqb (l_txt st) txt)).
  - unfold write_text in H.
    destruct (e_writable E (bak_path path)); [|discriminate].
    cbn [bind] in H. destruct (e_writable E path); [|discriminate].
    cbn [bind] in H. injection H as <- <-.
    split; [reflexivity|]. right. repeat split.
  - injection H as <- <-. split; [reflexivity|]. left. now split.
Qed.

(** Whatever the mode, the rounds add at most one row per image, in the
    locator's order, with the kind and source of the image. *)
Lemma process_images_rows (E : Env) (path : Path) (apply : bool) :
  forall images st st',
    process_images E path apply st images = Ok st' ->
    exists rows,
      l_changes st' = l_changes st ++ rows
      /\ subseq (map row_key rows) (map image_key images).
Proof.
  induction images as [|img images IH]; intros st st' H; simpl in H.
  - injection H as <-. exists []. rewrite app_nil_r. split; constructor.
  - destruct (process_image E path apply st img) as [st1|e] eqn:Hround;
      [|discriminate].
    simpl in H. destruct (IH _ _ H) as (rows & Hrows & Hsub).
    destruct img as [[k src] p].
    destruct (process_image_inv _ _ _ _ _ _ _ _ Hround)
      as [[_ ->] | (m & cap & w' & t & _ & _ & _ & ->)].
    + exists rows. split; [exact Hrows|]. simpl. now constructor.
    + exists (MkChange path k src (old_alt_of k (l_txt st) m) cap :: rows).
      rewrite Hrows. cbn [l_changes]. rewrite <- app_assoc.
      split; [reflexivity|]. simpl. now constructor.
Qed.

Lemma process_file_rows (E : Env) (w w' : World) (path : Path) (apply : bool)
    (txt : str) (rows : list ChangeRecord) :
  read_text (w_docs w) path = Some txt ->
  process_file E w path apply = Ok (rows, w') ->
  subseq (map row_key rows) (map image_key (find_images_in_markdown txt)).
Proof.
  intros Hread H.
  destruct (process_file_inv E w w' path apply txt rows Hread H)
    as (st & Hp & -> & _).
  destruct (process_images_rows E path apply _ _ _ Hp) as (rows' & Hr & Hsub).
  simpl in Hr. now subst rows'.
Qed.

(* ================================================================= *)
(** ** Offsets that have gone stale *)

(** C1 at a failing input.  The locator finds two images in the document.
    In apply mode the rewrite of the first one shortens the text from 61
    to 25 characters, the second image is then searched from its old
    offset 50, is not found, and gets no row: one row for two images. *)
Theorem stale_offset_drops_row :
  map image_key (find_images_in_markdown pets_text)
    = [(md, L "x.png"); (md, L "y.png")]
  /\ map img_start (find_images_in_markdown pets_text) = [0; 50]
  /\ process_file pets_env (one_doc pets_text) doc_path true
     = Ok ([pets_row_x], rewritten pets_text (L "![cat](x.png) ![b](y.png)")).
Proof. repeat split; vm_compute; reflexivity. Qed.

(** C3 at a failing input.  On the same document the dry run reports both
    images and the apply run only the first. *)
Theorem apply_report_differs_from_dry_run :
  report (process_file pets_env (one_doc pets_text) doc_path false)
    = Some [pets_row_x; pets_row_y]
  /\ report (process_file pets_env (one_doc pets_text) doc_path true)
     = Some [pets_row_x]
  /\ report (process_file pets_env (one_doc pets_text) doc_path false)
     <> report (process_file pets_env (one_doc pets_text) doc_path true).
Proof.
  assert (Hd : report (process_file pets_env (one_doc pets_text) doc_path false)
               = Some [pets_row_x; pets_row_y]) by (vm_compute; reflexivity).
  assert (Ha : report (process_file pets_env (one_doc pets_text) doc_path true)
               = Some [pets_row_x]) by (vm_compute; reflexivity).
  split; [exact Hd | split; [exact Ha|]].
  rewrite Hd, Ha. intros H.
  apply (f_equal (fun o => match o with
                           | Some l => List.length l
                           | None => 0
                           end)) in H.
  discriminate.
Qed.

(** C6 at a failing input.  The second image of the document is a
    reference [![b](y.png Qt Q)] as the claim describes it, located at
    offset 23, and its caption [dog] is not empty.  The apply run first
    rewrites the image in front of it, which shortens the text from 38 to
    29 characters; the reference is then searched from its old offset 23,
    is not found, and stays as it was: its title is not dropped and its
    alt text is not the caption.  With a third image the search from the
    old offset finds that image instead, and the round writes the caption
    and the source of the second image over it: [![c](z.png)] becomes
    [![dog](y.png)], so a destination path is changed. *)
Theorem title_kept_after_earlier_rewrite :
  well_formed_reference (L "b") (L "y.png") (L "t")
  /\ find_images_in_markdown titled_second_text
     = [(md, L "x.png", 0); (md, L "y.png", 23)]
  /\ caption_image pets_env doc_path (L "y.png") (one_doc titled_second_text)
     = Ok (L "dog", one_doc titled_second_text)
  /\ process_file pets_env (one_doc titled_second_text) doc_path true
     = Ok ([MkChange doc_path md (L "x.png") (L "aaaaaaaaaaaa") (L "cat")],
           rewritten titled_second_text
             (L "![cat](x.png) " ++ md_reference (L "b") (L "y.png") (L "t")))
  /\ find_images_in_markdown three_refs_text
     = [(md, L "x.png", 0); (md, L "y.png", 29); (md, L "z.png", 45)]
  /\ process_file pets_env (one_doc three_refs_text) doc_path true
     = Ok ([MkChange doc_path md (L "x.png") (L "long long alt text") (L "cat");
            MkChange doc_path md (L "y.png") (L "c") (L "dog")],
           rewritten three_refs_text
             (L "![cat](x.png) " ++ md_reference (L "b") (L "y.png") (L "t")
              ++ L " ![dog](y.png)")).
Proof.
  split; [repeat split; try reflexivity; discriminate|].
  repeat split; vm_compute; reflexivity.
Qed.

(* ================================================================= *)
(** ** The transient file of a remote image *)

(** C4 at a failing input.  The download succeeds and the captioning call
    raises: the transient file 0 is still there afterwards.  When the call
    returns, the file is removed. *)
Theorem transient_file_left_on_error :
  captioning_raises (remote_env (Raises (L "503 Server Error"))) doc_path
    cat_url (L "503 Server Error")
  /\ caption_image (remote_env (Raises (L "503 Server Error"))) doc_path
       cat_url no_world
     = Ok (placeholder (L "503 Server Error"), MkWorld [] [0] 1)
  /\ caption_image (remote_env (Returns (L "a cat"))) doc_path cat_url no_world
     = Ok (L "a cat", MkWorld [] [] 1).
Proof.
  split; [|split; reflexivity].
  exact (@raises_remote_api (remote_env (Raises (L "503 Server Error")))
           doc_path cat_url (L "503 Server Error") None (L "hf_secret")
           (L "PNGDATA") eq_refl eq_refl eq_refl eq_refl eq_refl eq_refl).
Qed.

(* ================================================================= *)
(** ** Captions as replacement strings *)

Lemma parse_template_plain (groups : nat) (s : str) :
  forallb (fun c => negb (Ascii.eqb c bsl)) s = true ->
  parse_template groups s = Some (map TLit s).
Proof.
  unfold parse_template.
  assert (H : forall fuel, List.length s < fuel ->
            forallb (fun c => negb (Ascii.eqb c bsl)) s = true ->
            parse_template_fuel fuel groups s = Some (map TLit s)).
  { induction s as [|c s IH]; intros fuel Hf Hs;
      (destruct fuel as [|fuel]; [inversion Hf|]); [reflexivity|].
    simpl in Hs. apply andb_prop in Hs. destruct Hs as [Hc Hs].
    simpl. rewrite Hc. simpl in Hf. rewrite IH by (assumption || lia).
    reflexivity. }
  apply H. lia.
Qed.

Lemma expand_plain (s txt : str) (m : rmatch) : expand (map TLit s) txt m = s.
Proof.
  unfold expand. induction s as [|c s IH]; simpl; [reflexivity|].
  now rewrite IH.
Qed.

(** A tag without [alt] gets the attribute before its closing bracket,
    whatever the caption is. *)
Lemma bare_tag_gets_alt (C : str) :
  new_tag bare_tag C = Ok (L "<img src=" ++ q (L "a.png") ++ L " alt=" ++ q C
                           ++ L ">").
Proof. reflexivity. Qed.

(** In a tag with an [alt] attribute a caption without backslash takes
    the place of the old value. *)
Lemma old_tag_gets_plain_caption (C : str) :
  forallb (fun c => negb (Ascii.eqb c bsl)) C = true ->
  new_tag old_tag C = Ok (L "<img src=" ++ q (L "a.png") ++ L " alt=" ++ q C
                          ++ L ">").
Proof.
  intros HC. unfold new_tag.
  replace (has_match ALT_RE old_tag) with true by (vm_compute; reflexivity).
  unfold sub. rewrite parse_template_plain.
  - replace (finditer ALT_RE old_tag) with [RMatch 17 26 [(1, (22, 25))]]
      by (vm_compute; reflexivity).
    unfold sub_matches. rewrite expand_plain. reflexivity.
  - unfold alt_attr. simpl. rewrite forallb_app, HC. reflexivity.
Qed.

(** C7 at a failing input.  In the tag with an [alt] attribute the caption
    is read as a replacement template: backslash [n] comes out as a line
    feed, so the attribute does not hold the caption; and the placeholder
    of a JSON decoding error, with its backslash [e], is rejected by [sub]
    and the exception leaves the run. *)
Theorem alt_value_is_template_expanded :
  new_tag old_tag slash_caption
    = Ok (L "<img src=" ++ q (L "a.png") ++ L " alt="
          ++ q (L "a" ++ [ascii_of_nat 10] ++ L "b") ++ L ">")
  /\ new_tag old_tag slash_caption
     <> Ok (L "<img src=" ++ q (L "a.png") ++ L " alt=" ++ q slash_caption
            ++ L ">")
  /\ new_tag old_tag (placeholder json_msg) = Abort re_error.
Proof.
  assert (H : new_tag old_tag slash_caption
              = Ok (L "<img src=" ++ q (L "a.png") ++ L " alt="
                    ++ q (L "a" ++ [ascii_of_nat 10] ++ L "b") ++ L ">"))
    by (vm_compute; reflexivity).
  split; [exact H | split; [|vm_compute; reflexivity]].
  rewrite H. intros Heq.
  apply (f_equal (fun r => match r with
                           | Ok t => List.length t
                           | Abort _ => 0
                           end)) in Heq.
  discriminate.
Qed.

(** C5 at a failing input.  The remote call for [x.png] raises with the
    message of a JSON decoding error.  The dry run reports the placeholder
    for that image and the caption of the other one; the apply run hands
    the placeholder to [ALT_RE.sub], which raises, and the run ends with
    that exception: no row, no rewrite. *)
Theorem failed_caption_aborts_apply_run :
  captioning_raises json_env doc_path (L "x.png") json_msg
  /\ report (process_file json_env (one_doc tags_text) doc_path false)
     = Some [MkChange doc_path html (L "x.png") (L "old") (placeholder json_msg);
             MkChange doc_path html (L "y.png") [] (L "dog")]
  /\ process_file json_env (one_doc tags_text) doc_path true = Abort re_error.
Proof.
  split; [|split; vm_compute; reflexivity].
  exact (@raises_api json_env doc_path (L "x.png") json_msg
           (in_content "x.png") (L "hf_secret")
           eq_refl eq_refl eq_refl eq_refl eq_refl).
Qed.

(* ================================================================= *)
(** ** The placeholder in the document *)

(** One round of the apply loop for an image whose captioning raises:
    the placeholder is a caption that is not empty, so the round runs the
    rewrite with it.  A Markdown image gets it as alt text and a tag
    without [alt] gets it as a new attribute; a tag with [alt] gets it
    through [ALT_RE.sub], which is spelled out for a message without
    backslash.  Only a round for an image with an empty caption leaves
    the text. *)
Lemma placeholder_is_written (E : Env) (path : Path) (st : lstate)
    (k : kind) (src : str) (p : nat) (m : rmatch) (msg : str) :
  find_again k (l_txt st) p = Some m ->
  captioning_raises E path src msg ->
  exists w',
    caption_image E path src (l_world st) = Ok (placeholder msg, w')
    /\ placeholder_written E path st k src p m msg w'
    /\ caption_decides_rewrite E path st.
Proof.
  intros Hm Hr.
  destruct (raises_gives_placeholder E path src msg (l_world st) Hr)
    as [w' Hcap].
  exists w'. split; [exact Hcap|]. split.
  - unfold placeholder_written. cbv zeta.
    assert (Hround :
      process_image E path true st (k, src, p)
      = (t <- rewrite k (l_txt st) m (placeholder msg) src ;;
         Ok (LState t
               (l_changes st
                ++ [MkChange path k src (old_alt_of k (l_txt st) m)
                      (placeholder msg)])
               w'))).
    { unfold process_image. rewrite Hm, Hcap. reflexivity. }
    split; [apply placeholder_not_empty|]. split; [exact Hround|].
    split; [|split].
    + intros ->. rewrite Hround. reflexivity.
    + intros -> Hno. rewrite Hround. unfold rewrite, new_tag.
      rewrite Hno. reflexivity.
    + intros -> Hyes Hmsg. rewrite Hround. unfold rewrite, new_tag, sub.
      rewrite Hyes, parse_template_plain; [reflexivity|].
      unfold alt_attr, placeholder. simpl.
      rewrite !forallb_app, Hmsg. reflexivity.
  - intros k' src' p' m' cap w0 Hm' Hc. cbv zeta.
    unfold process_image. rewrite Hm', Hc. cbn [bind].
    split; [intros ->; reflexivity|].
    intros Hne. destruct cap; [contradiction|]. reflexivity.
Qed.

(** The lemma at the document [![old](x.png)], where the local captioner
    cannot read [x.png]. *)
Lemma placeholder_is_written_witness :
  find_again md (l_txt (LState (L "![old](x.png)") [] no_world)) 0
    = Some (RMatch 0 13 [(2, (7, 12)); (1, (2, 5))])
  /\ captioning_raises broken_env doc_path (L "x.png")
       (L "cannot identify image file")
  /\ exists w',
       caption_image broken_env doc_path (L "x.png")
         (l_world (LState (L "![old](x.png)") [] no_world))
       = Ok (placeholder (L "cannot identify image file"), w')
       /\ placeholder_written broken_env doc_path
            (LState (L "![old](x.png)") [] no_world) md (L "x.png") 0
            (RMatch 0 13 [(2, (7, 12)); (1, (2, 5))])
            (L "cannot identify image file") w'
       /\ caption_decides_rewrite broken_env doc_path
            (LState (L "![old](x.png)") [] no_world).
Proof.
  assert (Hm : find_again md (l_txt (LState (L "![old](x.png)") [] no_world)) 0
               = Some (RMatch 0 13 [(2, (7, 12)); (1, (2, 5))]))
    by reflexivity.
  assert (Hr : captioning_raises broken_env doc_path (L "x.png")
                 (L "cannot identify image file")).
  { exact (@raises_local broken_env doc_path (L "x.png")
             (L "cannot identify image file") (in_content "x.png")
             (fun p => if Path_eqb p (in_content "x.png")
                       then Raises (L "cannot identify image file")
                       else Returns (L "dog"))
             eq_refl eq_refl eq_refl eq_refl). }
  split; [exact Hm|]. split; [exact Hr|].
  exact (placeholder_is_written broken_env doc_path
           (LState (L "![old](x.png)") [] no_world) md (L "x.png") 0
           (RMatch 0 13 [(2, (7, 12)); (1, (2, 5))])
           (L "cannot identify image file") Hm Hr).
Defined.

(** A whole apply run on that document: the placeholder is the new alt
    text. *)
Example placeholder_in_document :
  process_file broken_env (one_doc (L "![old](x.png)")) doc_path true
  = Ok ([MkChange doc_path md (L "x.png") (L "old")
           (L "(error: cannot identify image file)")],
        rewritten (L "![old](x.png)")
                  (L "![(error: cannot identify image file)](x.png)")).
Proof. vm_compute. reflexivity. Qed.

(** C10 at a failing input.  Captioning [x.png] raises with the message
    of a JSON decoding error, and the image is a tag that has an [alt]
    attribute.  The placeholder is the caption and is not empty, so the
    round of the apply loop runs the rewrite with it; [ALT_RE.sub] reads
    it as a replacement template, rejects its backslash [e], and the
    exception leaves the round and the run before anything is written:
    the placeholder is not in the document. *)
Theorem placeholder_not_written_to_tag_with_alt :
  captioning_raises json_env doc_path (L "x.png") json_msg
  /\ hd_error (find_images_in_markdown tags_text) = Some (html, L "x.png", 0)
  /\ find_again html tags_text 0 = Some (RMatch 0 27 [])
  /\ group tags_text (RMatch 0 27 []) 0
     = L "<img src=" ++ q (L "x.png") ++ L " alt=" ++ q (L "old") ++ L ">"
  /\ caption_image json_env doc_path (L "x.png") (one_doc tags_text)
     = Ok (placeholder json_msg, one_doc tags_text)
  /\ placeholder json_msg <> []
  /\ process_image json_env doc_path true
       (LState tags_text [] (one_doc tags_text)) (html, L "x.png", 0)
     = Abort re_error
  /\ process_file json_env (one_doc tags_text) doc_path true = Abort re_error.
Proof.
  split.
  { exact (@raises_api json_env doc_path (L "x.png") json_msg
             (in_content "x.png") (L "hf_secret")
             eq_refl eq_refl eq_refl eq_refl eq_refl). }
  repeat split; try (vm_compute; reflexivity). discriminate.
Qed.

(* ================================================================= *)
(** ** Existence checks and writes that raise *)

(** The check of a candidate whose name is too long raises, outside every
    [try]: the resolver, the captioning of the image and the run end with
    that exception, in a dry run as in apply mode, whatever the
    captioner. *)
Example check_that_raises_ends_run :
  checks_answer bounded_env doc_path long_name = false
  /\ resolve_image_path bounded_env long_name doc_path = Abort os_error
  /\ caption_image bounded_env doc_path long_name (one_doc long_name_text)
     = Abort os_error
  /\ process_file bounded_env (one_doc long_name_text) doc_path false
     = Abort os_error
  /\ process_file bounded_env (one_doc long_name_text) doc_path true
     = Abort os_error.
Proof. repeat split; vm_compute; reflexivity. Qed.

(** When the backup cannot be written, an apply run that has changed the
    text ends with the exception of [write_text]; the dry run does not
    write and ends with its report. *)
Example write_that_raises_ends_apply_run :
  process_file no_backup_env (one_doc title_text) doc_path true
    = Abort os_error
  /\ process_file no_backup_env (one_doc title_text) doc_path false
     = Ok ([MkChange doc_path md (L "x.png") (L "cat") (L "cat")],
           one_doc title_text).
Proof. split; vm_compute; reflexivity. Qed.

(* ================================================================= *)
(** ** Failures of single images in a dry run *)

Lemma checks_answer_in_total (E : Env) (path : Path) (txt : str) :
  (forall p, e_exists E p <> None) -> checks_answer_in E path txt = true.
Proof.
  intros H. apply forallb_forall. intros img _.
  now apply checks_answer_total.
Qed.

(** In a dry run in which the existence checks answer, every located
    image has its row, and the caption in the row is decided by that
    image alone: the placeholder with the message when captioning it
    raises, whatever happens for the other images. *)
Lemma dry_run_isolates_failures (E : Env) (w : World) (path : Path)
    (txt : str) :
  read_text (w_docs w) path = Some txt ->
  checks_answer_in E path txt = true ->
  exists rows w',
    process_file E w path false = Ok (rows, w')
    /\ List.length rows = List.length (find_images_in_markdown txt)
    /\ forall i img row msg,
         nth_error (find_images_in_markdown txt) i = Some img ->
         nth_error rows i = Some row ->
         captioning_raises E path (img_src img) msg ->
         c_caption row = placeholder msg.
Proof.
  intros Hread Hchk.
  destruct (dry_run_reports_every_image E w path txt Hread Hchk)
    as (rows & w' & Hp & _ & Hk & Hc).
  exists rows, w'. split; [exact Hp|]. split.
  - apply (f_equal (@List.length _)) in Hk. now rewrite !length_map in Hk.
  - intros i img row msg Hi Hrow Hr.
    apply (map_nth_error c_caption) in Hrow.
    apply (map_nth_error (fun i => caption_text E path (img_src i))) in Hi.
    rewrite Hc, Hi in Hrow. injection Hrow as <-.
    exact (proj2 (raises_caption_text E path (img_src img) msg Hr)).
Qed.

(** A dry run over a list of stored documents, on a file system whose
    existence checks answer, writes none of them and reports every image
    of every document, in processing order. *)
Lemma process_all_dry_run (E : Env) (docs : list (Path * str))
    (files : list Path) :
  (forall p, e_exists E p <> None) ->
  Forall (fun f => read_text docs f <> None) files ->
  forall w, w_docs w = docs ->
  exists rows w',
    process_all E w files false = Ok (rows, w')
    /\ w_docs w' = docs
    /\ map row_key rows = located_keys docs files.
Proof.
  intros Hex. induction 1 as [|f files Hf _ IH]; intros w Hw.
  - exists [], w. repeat split. exact Hw.
  - destruct (read_text docs f) as [txt|] eqn:Hread; [|contradiction]. clear Hf.
    rewrite <- Hw in Hread.
    destruct (dry_run_reports_every_image E w f txt Hread
                (checks_answer_in_total E f txt Hex))
      as (rows & w1 & Hp & Hd & Hk & _).
    destruct (IH w1 (eq_trans Hd Hw)) as (rows' & w2 & Hp' & Hd' & Hk').
    exists (rows ++ rows'), w2. simpl. rewrite Hp. simpl. rewrite Hp'. simpl.
    repeat split; [exact Hd'|].
    unfold located_keys. simpl. rewrite Hw in Hread. rewrite Hread.
    rewrite map_app, Hk. f_equal. exact Hk'.
Qed.

(* ================================================================= *)
(** * Further properties *)

(** ** What a match consumes *)

Section Consumes.

Context {A : Type}.

(** A successful repetition has read a prefix of its input, all of it in
    the class, and continued from there. *)
Lemma star_bt_inv (f : ascii -> bool) (rs : str) :
  forall p pv (k : nat -> str -> option ascii -> option A) x,
    star_bt f p rs pv k = Some x ->
    exists xs ys,
      rs = xs ++ ys /\ forallb f xs = true
      /\ k (p + List.length xs) ys (last_seen pv xs) = Some x.
Proof.
  induction rs as [|c rs IH]; intros p pv k x H; simpl in H.
  - exists [], []. simpl. rewrite Nat.add_0_r. now repeat split.
  - assert (Hstop : k p (c :: rs) pv = Some x ->
              exists xs ys, c :: rs = xs ++ ys /\ forallb f xs = true
                /\ k (p + List.length xs) ys (last_seen pv xs) = Some x).
    { intros Hk. exists [], (c :: rs). simpl. rewrite Nat.add_0_r.
      now repeat split. }
    destruct (f c) eqn:Hc; [|now apply Hstop].
    destruct (star_bt f (S p) rs (Some c) k) eqn:Hs; [|now apply Hstop].
    injection H as ->.
    destruct (IH _ _ _ _ Hs) as (xs & ys & -> & Hall & Hk).
    exists (c :: xs), ys. simpl. rewrite Hc, Hall.
    repeat split. rewrite <- Hk. f_equal. lia.
Qed.

(** A successful expression has read a prefix of its input, at least
    [min_len] characters long, and continued from there; without groups
    it leaves the groups as they were. *)
Lemma bt_consumes (ic : bool) (r : regex) :
  forall st (k : mstate -> option A) x,
    bt ic r st k = Some x ->
    exists st' xs,
      rest st = xs ++ rest st'
      /\ pos st' = pos st + List.length xs
      /\ min_len r <= List.length xs
      /\ (ngroups r = 0 -> caps st' = caps st)
      /\ k st' = Some x.
Proof.
  induction r as [c|f|f|f|r1 IH1 r2 IH2|r1 IH1|n r1 IH1|];
    intros st k x H; simpl in H.
  - destruct (rest st) as [|y rs] eqn:Hrest; [discriminate|].
    destruct (chr_eq ic c y); [|discriminate].
    exists (advance st y rs), [y]. simpl.
    split; [reflexivity|]. split; [lia|]. split; [lia|]. now split.
  - destruct (rest st) as [|y rs] eqn:Hrest; [discriminate|].
    destruct (f y); [|discriminate].
    exists (advance st y rs), [y]. simpl.
    split; [reflexivity|]. split; [lia|]. split; [lia|]. now split.
  - apply star_bt_inv in H. destruct H as (xs & ys & Hrs & _ & Hk).
    exists (MState (pos st + List.length xs) ys (last_seen (prev st) xs)
              (caps st)), xs. simpl.
    split; [exact Hrs|]. split; [reflexivity|]. split; [lia|]. now split.
  - destruct (rest st) as [|y rs] eqn:Hrest; [discriminate|].
    destruct (f y); [|discriminate].
    apply star_bt_inv in H. destruct H as (xs & ys & Hrs & _ & Hk).
    exists (MState (S (pos st) + List.length xs) ys (last_seen (Some y) xs)
              (caps st)), (y :: xs). simpl.
    split; [now rewrite Hrs|]. split; [lia|]. split; [lia|]. now split.
  - apply IH1 in H. destruct H as (st1 & xs1 & Hr1 & Hp1 & Hm1 & Hc1 & H).
    apply IH2 in H. destruct H as (st2 & xs2 & Hr2 & Hp2 & Hm2 & Hc2 & H).
    exists st2, (xs1 ++ xs2). rewrite length_app, <- app_assoc.
    split; [now rewrite Hr1, Hr2|]. split; [lia|]. split; [simpl; lia|].
    split; [|exact H].
    simpl. intros Hg. rewrite Hc2, Hc1; [reflexivity | lia | lia].
  - destruct (bt ic r1 st k) eqn:Hb.
    + injection H as ->. apply IH1 in Hb.
      destruct Hb as (st1 & xs1 & Hr1 & Hp1 & _ & Hc1 & H).
      exists st1, xs1. simpl.
      split; [exact Hr1|]. split; [exact Hp1|]. split; [lia|]. now split.
    + exists st, []. simpl.
      split; [reflexivity|]. split; [lia|]. split; [lia|]. now split.
  - apply IH1 in H. destruct H as (st1 & xs1 & Hr1 & Hp1 & Hm1 & _ & H).
    exists (MState (pos st1) (rest st1) (prev st1)
              ((n, (pos st, pos st1)) :: caps st1)), xs1. simpl.
    split; [exact Hr1|]. split; [exact Hp1|]. split; [exact Hm1|].
    split; [discriminate | exact H].
  - destruct (at_boundary st); [|discriminate].
    exists st, []. simpl.
    split; [reflexivity|]. split; [lia|]. split; [lia|]. now split.
Qed.

End Consumes.

(** A match covers at least [min_len] characters of the text it was
    tried on and ends inside it. *)
Lemma match_at_bounds (P : pattern) pv p rs m :
  match_at P pv p rs = Some m ->
  m_start m = p
  /\ p + min_len (p_re P) <= m_end m
  /\ m_end m <= p + List.length rs.
Proof.
  unfold match_at. intros H. apply bt_consumes in H.
  destruct H as (st & xs & Hr & Hp & Hm & _ & H).
  injection H as <-. simpl in *. rewrite Hr, length_app.
  split; [reflexivity|]. split; lia.
Qed.

Lemma length_skipn_le (txt : str) (p : nat) :
  p <= List.length txt -> p + List.length (skipn p txt) = List.length txt.
Proof. intros H. rewrite length_skipn. lia. Qed.

(** A match of the scan lies inside the text. *)
Lemma finditer_in_text (P : pattern) (txt : str) (m : rmatch) :
  In m (finditer P txt) ->
  m_start m + min_len (p_re P) <= m_end m /\ m_end m <= List.length txt.
Proof.
  intros Hin.
  destruct (finditer_from_found P txt txt 0 None 0 m eq_refl eq_refl
              (Nat.le_0_l _) Hin) as [Hle Hm].
  apply match_at_bounds in Hm. destruct Hm as (_ & Hmin & Hend).
  rewrite length_skipn_le in Hend by exact Hle. split; assumption.
Qed.

(* ================================================================= *)
(** ** The shape of what the patterns match *)

Lemma chr_eq_false_eq c x : chr_eq false c x = true -> x = c.
Proof. unfold chr_eq. intros H. apply Ascii.eqb_eq in H. now subst. Qed.

(** A Markdown match begins with [![], an alt text without closing
    bracket, [](] and a source that is not empty and holds neither a
    closing parenthesis nor a blank; the groups are these two parts. *)
Lemma md_match_inv pv p rs m :
  match_at MD_IMG_RE pv p rs = Some m ->
  exists alt src tail,
    rs = L "![" ++ alt ++ L "](" ++ src ++ tail
    /\ forallb (not_in ["]"%char]) alt = true
    /\ src <> []
    /\ forallb (not_in [")"%char; " "%char]) src = true
    /\ m_caps m = [(2, (p + 4 + List.length alt,
                        p + 4 + List.length alt + List.length src));
                   (1, (p + 2, p + 2 + List.length alt))].
Proof.
  unfold match_at, MD_IMG_RE. cbn [p_re p_icase cat].
  match goal with |- context [Cat (Opt ?o) (Lit ?c)] =>
    remember (Cat (Opt o) (Lit c)) as tail eqn:Htail end.
  cbn [bt rest pos prev caps advance]. intros H.
  destruct rs as [|c1 rs]; [discriminate|].
  destruct (chr_eq false "!" c1) eqn:E1; [|discriminate].
  apply chr_eq_false_eq in E1. subst c1.
  destruct rs as [|c2 rs]; [discriminate|].
  destruct (chr_eq false "[" c2) eqn:E2; [|discriminate].
  apply chr_eq_false_eq in E2. subst c2.
  apply star_bt_inv in H. destruct H as (alt & ys & -> & Halt & H).
  destruct ys as [|c3 ys]; [discriminate|].
  destruct (chr_eq false "]" c3) eqn:E3; [|discriminate].
  apply chr_eq_false_eq in E3. subst c3.
  destruct ys as [|c4 ys]; [discriminate|].
  destruct (chr_eq false "(" c4) eqn:E4; [|discriminate].
  apply chr_eq_false_eq in E4. subst c4.
  destruct ys as [|s0 ys]; [discriminate|].
  destruct (not_in [")"%char; " "%char] s0) eqn:Es0; [|discriminate].
  apply star_bt_inv in H. destruct H as (xs & tl & -> & Hxs & H).
  apply bt_consumes in H. destruct H as (st' & zs & _ & _ & _ & Hcaps & H).
  injection H as <-. cbn [m_caps]. rewrite Hcaps by (subst tail; reflexivity).
  exists alt, (s0 :: xs), tl. cbn [caps].
  split; [reflexivity|]. split; [exact Halt|]. split; [discriminate|].
  split; [simpl; now rewrite Es0, Hxs|].
  simpl List.length.
  repeat match goal with
         | |- (_, _) = (_, _) => f_equal
         | |- _ :: _ = _ :: _ => f_equal
         end; lia.
Qed.

(** A tag match is [<img] in any case, then characters that are not a
    closing bracket, then the closing bracket. *)
Lemma html_match_inv pv p rs m :
  match_at HTML_IMG_RE pv p rs = Some m ->
  exists c1 c2 c3 c4 body tail,
    rs = c1 :: c2 :: c3 :: c4 :: body ++ ">"%char :: tail
    /\ chr_eq true "<" c1 = true /\ chr_eq true "i" c2 = true
    /\ chr_eq true "m" c3 = true /\ chr_eq true "g" c4 = true
    /\ forallb (not_in [">"%char]) body = true
    /\ m_start m = p
    /\ m_end m = p + 5 + List.length body.
Proof.
  unfold match_at, HTML_IMG_RE. cbn [p_re p_icase cat lits L map app
    list_ascii_of_string].
  cbn [bt rest pos prev caps advance]. intros H.
  destruct rs as [|c1 rs]; [discriminate|].
  destruct (chr_eq true "<" c1) eqn:E1; [|discriminate].
  destruct rs as [|c2 rs]; [discriminate|].
  destruct (chr_eq true "i" c2) eqn:E2; [|discriminate].
  destruct rs as [|c3 rs]; [discriminate|].
  destruct (chr_eq true "m" c3) eqn:E3; [|discriminate].
  destruct rs as [|c4 rs]; [discriminate|].
  destruct (chr_eq true "g" c4) eqn:E4; [|discriminate].
  destruct (at_boundary _); [|discriminate].
  apply star_bt_inv in H. destruct H as (body & ys & -> & Hbody & H).
  destruct ys as [|c5 ys]; [discriminate|].
  destruct (chr_eq true ">" c5) eqn:E5; [|discriminate].
  assert (c5 = ">"%char) as ->.
  { destruct c5 as [[] [] [] [] [] [] [] []]; try discriminate E5; reflexivity. }
  injection H as <-. cbn [m_start m_end].
  exists c1, c2, c3, c4, body, ys.
  split; [reflexivity|]. split; [exact E1|]. split; [exact E2|].
  split; [exact E3|]. split; [exact E4|]. split; [exact Hbody|].
  split; [reflexivity | lia].
Qed.

(** A [src] attribute match: the name in any case, a quote, a value that
    is not empty and holds no quote, and a quote. *)
Lemma src_match_inv pv p rs m :
  match_at SRC_RE pv p rs = Some m ->
  exists c1 c2 c3 c4 c5 value tail,
    rs = c1 :: c2 :: c3 :: c4 :: c5 :: value ++ tail
    /\ value <> []
    /\ forallb (not_in [dq; sq]) value = true
    /\ m_caps m = [(1, (p + 5, p + 5 + List.length value))].
Proof.
  unfold match_at, SRC_RE. cbn [p_re p_icase cat lits L map app
    list_ascii_of_string].
  cbn [bt rest pos prev caps advance]. intros H.
  destruct rs as [|c1 rs]; [discriminate|].
  destruct (chr_eq true "s" c1); [|discriminate].
  destruct rs as [|c2 rs]; [discriminate|].
  destruct (chr_eq true "r" c2); [|discriminate].
  destruct rs as [|c3 rs]; [discriminate|].
  destruct (chr_eq true "c" c3); [|discriminate].
  destruct rs as [|c4 rs]; [discriminate|].
  destruct (chr_eq true "=" c4); [|discriminate].
  destruct rs as [|c5 rs]; [discriminate|].
  destruct (one_of [dq; sq] c5); [|discriminate].
  destruct rs as [|v0 rs]; [discriminate|].
  destruct (not_in [dq; sq] v0) eqn:Ev; [|discriminate].
  apply star_bt_inv in H. destruct H as (vs & ys & -> & Hvs & H).
  destruct ys as [|c6 ys]; [discriminate|].
  destruct (one_of [dq; sq] c6); [|discriminate].
  injection H as <-. cbn [m_caps].
  exists c1, c2, c3, c4, c5, (v0 :: vs), (c6 :: ys).
  split; [reflexivity|]. split; [discriminate|].
  split; [simpl; now rewrite Ev, Hvs|].
  simpl List.length.
  repeat match goal with
         | |- (_, _) = (_, _) => f_equal
         | |- _ :: _ = _ :: _ => f_equal
         end; lia.
Qed.

(** The match a search returns was found at an offset of the text. *)
Lemma search_inv (P : pattern) (txt : str) (p : nat) (m : rmatch) :
  search P txt p = Some m ->
  m_start m <= List.length txt
  /\ match_at P (prev_char txt (m_start m)) (m_start m)
       (skipn (m_start m) txt) = Some m.
Proof.
  unfold search.
  assert (H : forall rs q pv,
            rs = skipn q txt -> pv = prev_char txt q -> q <= List.length txt ->
            search_from P pv q rs = Some m ->
            m_start m <= List.length txt
            /\ match_at P (prev_char txt (m_start m)) (m_start m)
                 (skipn (m_start m) txt) = Some m).
  { induction rs as [|c rs IH]; intros q pv Hrs Hpv Hq Hs; simpl in Hs;
      destruct (match_at P pv q _) as [m0|] eqn:Hm; try discriminate.
    - injection Hs as ->. destruct (match_at_span _ _ _ _ _ Hm) as [-> _].
      rewrite <- Hrs, <- Hpv. now split.
    - injection Hs as ->. destruct (match_at_span _ _ _ _ _ Hm) as [-> _].
      rewrite <- Hrs, <- Hpv. now split.
    - symmetry in Hrs.
      destruct (skipn_cons_inv _ _ _ _ Hrs) as (Hrs' & Hnth & Hlt).
      apply (IH (S q) (Some c)); [now symmetry | simpl; now symmetry | lia
                                  | exact Hs]. }
  apply H; [reflexivity | reflexivity | apply Nat.le_min_r].
Qed.

(** The part of a text a match of [rs = skipn p txt] has read. *)
Lemma slice_of_rest (txt : str) (p a : nat) (pre mid post : str) :
  p <= List.length txt -> skipn p txt = pre ++ mid ++ post ->
  a = p + List.length pre ->
  slice txt a (a + List.length mid) = mid.
Proof.
  intros Hp Hrs ->.
  apply slice_at with (pre := firstn p txt ++ pre) (post := post).
  - rewrite <- app_assoc, <- Hrs. symmetry. apply firstn_skipn.
  - rewrite length_app, length_firstn, Nat.min_l by exact Hp. reflexivity.
  - reflexivity.
Qed.

(* ================================================================= *)
(** ** What the locator returns *)

(** X1: the offset of every located image is an index of the text, and
    from it the pattern finds a match that starts there, is not empty and
    ends inside the text. *)
Theorem located_offsets_inside (text : str) (img : image) :
  In img (find_images_in_markdown text) ->
  exists m,
    find_again (img_kind img) text (img_start img) = Some m
    /\ m_start m = img_start img
    /\ img_start img < m_end m
    /\ m_end m <= List.length text.
Proof.
  unfold find_images_in_markdown. intros H.
  apply in_app_or in H. destruct H as [H|H].
  - apply in_map_iff in H. destruct H as (m & <- & Hm).
    exists m. destruct (finditer_in_text _ _ _ Hm) as [Hmin Hend].
    change (min_len (p_re MD_IMG_RE)) with 6 in Hmin. simpl.
    split; [now apply finditer_search|]. split; [reflexivity|]. split; lia.
  - apply in_flat_map in H. destruct H as (m & Hm & H).
    unfold html_image in H. destruct (search SRC_RE _ 0); [|contradiction].
    destruct H as [<-|[]].
    exists m. destruct (finditer_in_text _ _ _ Hm) as [Hmin Hend].
    change (min_len (p_re HTML_IMG_RE)) with 5 in Hmin. simpl.
    split; [now apply finditer_search|]. split; [reflexivity|]. split; lia.
Qed.

Lemma located_offsets_inside_witness :
  In (md, L "b.png", 18) (find_images_in_markdown mixed_text)
  /\ exists m,
       find_again (img_kind (md, L "b.png", 18)) mixed_text
         (img_start (md, L "b.png", 18)) = Some m
       /\ m_start m = img_start (md, L "b.png", 18)
       /\ img_start (md, L "b.png", 18) < m_end m
       /\ m_end m <= List.length mixed_text.
Proof.
  assert (Hin : In (md, L "b.png", 18) (find_images_in_markdown mixed_text))
    by (vm_compute; left; reflexivity).
  split; [exact Hin|].
  exact (located_offsets_inside mixed_text (md, L "b.png", 18) Hin).
Defined.

(** X2: a located source is never empty; a Markdown source holds neither
    a blank nor a closing parenthesis, the source of a tag holds no
    quote. *)
Theorem located_sources_delimited (text : str) (img : image) :
  In img (find_images_in_markdown text) ->
  img_src img <> []
  /\ match img_kind img with
     | md => forallb (not_in [")"%char; " "%char]) (img_src img) = true
     | html => forallb (not_in [dq; sq]) (img_src img) = true
     end.
Proof.
  unfold find_images_in_markdown. intros H.
  apply in_app_or in H. destruct H as [H|H].
  - apply in_map_iff in H. destruct H as (m & <- & Hm).
    destruct (finditer_from_found MD_IMG_RE text text 0 None 0 m eq_refl
                eq_refl (Nat.le_0_l _) Hm) as [Hle Hmatch].
    pose proof Hmatch as Hinv. apply md_match_inv in Hinv.
    destruct Hinv as (alt & src & tail & Hrs & _ & Hne & Hsrc & Hcaps).
    assert (Hg : group text m 2 = src).
    { unfold group. rewrite Hcaps. simpl lookup_cap.
      apply slice_of_rest with (p := m_start m) (pre := L "![" ++ alt ++ L "](")
                               (post := tail).
      - exact Hle.
      - rewrite Hrs. repeat (rewrite <- app_assoc; simpl). reflexivity.
      - rewrite !length_app. simpl. lia. }
    unfold md_image. cbn [img_src img_kind fst snd]. rewrite Hg. now split.
  - apply in_flat_map in H. destruct H as (m & _ & H).
    unfold html_image in H.
    destruct (search SRC_RE (group text m 0) 0) as [s|] eqn:Hs; [|contradiction].
    destruct H as [<-|[]].
    destruct (search_inv _ _ _ _ Hs) as [Hle Hmatch].
    pose proof Hmatch as Hinv. apply src_match_inv in Hinv.
    destruct Hinv as (c1 & c2 & c3 & c4 & c5 & value & tail & Hrs & Hne & Hv
                      & Hcaps).
    assert (Hg : group (group text m 0) s 1 = value).
    { unfold group at 1. rewrite Hcaps. simpl lookup_cap.
      apply slice_of_rest with (p := m_start s) (pre := [c1; c2; c3; c4; c5])
                               (post := tail).
      - exact Hle.
      - rewrite Hrs. reflexivity.
      - simpl. lia. }
    cbn [img_src img_kind fst snd]. rewrite Hg. now split.
Qed.

Lemma located_sources_delimited_witness :
  In (html, L "a.png", 0) (find_images_in_markdown mixed_text)
  /\ img_src (html, L "a.png", 0) <> []
  /\ match img_kind (html, L "a.png", 0) with
     | md => forallb (not_in [")"%char; " "%char])
               (img_src (html, L "a.png", 0)) = true
     | html => forallb (not_in [dq; sq]) (img_src (html, L "a.png", 0)) = true
     end.
Proof.
  assert (Hin : In (html, L "a.png", 0) (find_images_in_markdown mixed_text))
    by (vm_compute; right; left; reflexivity).
  split; [exact Hin|].
  exact (located_sources_delimited mixed_text (html, L "a.png", 0) Hin).
Defined.

(* ================================================================= *)
(** ** Reading back what the rewrite wrote *)

Lemma md_markup_chars (C src post : str) :
  md_markup C src ++ post
  = "!"%char :: "["%char :: C ++ "]"%char :: "("%char :: src
    ++ ")"%char :: post.
Proof.
  unfold md_markup. simpl. repeat (rewrite <- app_assoc; simpl). reflexivity.
Qed.

Lemma md_markup_length (C src : str) :
  List.length (md_markup C src) = 5 + List.length C + List.length src.
Proof.
  unfold md_markup. simpl. repeat (rewrite length_app; simpl). lia.
Qed.

(** The pattern matches the markup the rewrite writes, from its first to
    its last character, with the caption as group 1 and the source as
    group 2. *)
Lemma md_markup_match (C src post : str) pv p :
  forallb (not_in ["]"%char]) C = true ->
  src <> [] ->
  forallb (not_in [")"%char; " "%char]) src = true ->
  match_at MD_IMG_RE pv p (md_markup C src ++ post)
  = Some (RMatch p (p + List.length (md_markup C src))
            [(2, (p + 4 + List.length C,
                  p + 4 + List.length C + List.length src));
             (1, (p + 2, p + 2 + List.length C))]).
Proof.
  intros HC Hne Hsrc.
  rewrite md_markup_chars, md_markup_length.
  destruct src as [|s0 src]; [contradiction|]. clear Hne.
  simpl in Hsrc. apply andb_prop in Hsrc. destruct Hsrc as [Hs0 Hsrc].
  unfold match_at. simpl.
  apply star_bt_greedy; [exact HC | reflexivity |]. simpl.
  rewrite Hs0.
  apply star_bt_greedy; [exact Hsrc | reflexivity |]. simpl.
  f_equal. f_equal; [lia|].
  repeat match goal with
         | |- (_, _) = (_, _) => f_equal
         | |- _ :: _ = _ :: _ => f_equal
         end; lia.
Qed.

(** X3: the Markdown markup written for a caption without closing bracket
    reads back as it was written.  The locator finds it with the same
    source, the alt text found is the caption, and a round of the apply
    loop with that caption leaves the text as it is. *)
Theorem markdown_markup_reads_back (E : Env) (path : Path) (w w' : World)
    (chg : list ChangeRecord) (pre post C src : str) :
  forallb (not_in ["]"%char]) C = true ->
  src <> [] ->
  forallb (not_in [")"%char; " "%char]) src = true ->
  caption_image E path src w = Ok (C, w') ->
  hd_error (find_images_in_markdown (md_markup C src ++ post))
    = Some (md, src, 0)
  /\ process_image E path true
       (LState (pre ++ md_markup C src ++ post) chg w)
       (md, src, List.length pre)
     = Ok (LState (pre ++ md_markup C src ++ post)
                  (chg ++ [MkChange path md src C C]) w').
Proof.
  intros HC Hne Hsrc Hcap. split.
  - unfold find_images_in_markdown, finditer.
    destruct (finditer_from_hit _ _ _ _ _
                (md_markup_match C src post None 0 HC Hne Hsrc)) as [tl ->].
    simpl. f_equal. unfold md_image. simpl. f_equal. f_equal.
    apply slice_at with (pre := L "![" ++ C ++ L "](") (post := L ")" ++ post).
    + unfold md_markup. repeat (rewrite <- app_assoc; simpl). reflexivity.
    + rewrite !length_app. simpl. lia.
    + lia.
  - unfold process_image. cbn [find_again l_txt l_world l_changes].
    rewrite (search_after_prefix _ _ _ _
               (md_markup_match C src post _ (List.length pre) HC Hne Hsrc)).
    rewrite Hcap. cbn [bind].
    assert (Hold : old_alt_of md (pre ++ md_markup C src ++ post)
                     (RMatch (List.length pre)
                        (List.length pre + List.length (md_markup C src))
                        [(2, (List.length pre + 4 + List.length C,
                              List.length pre + 4 + List.length C
                              + List.length src));
                         (1, (List.length pre + 2,
                              List.length pre + 2 + List.length C))]) = C).
    { unfold old_alt_of, group. simpl lookup_cap. cbv iota.
      apply slice_at with (pre := pre ++ L "![")
                          (post := L "](" ++ src ++ L ")" ++ post).
      - unfold md_markup. repeat (rewrite <- app_assoc; simpl). reflexivity.
      - rewrite length_app. simpl. lia.
      - lia. }
    rewrite Hold.
    destruct (true && truthy C); [|reflexivity].
    unfold rewrite, bind. f_equal. f_equal.
    apply splice_app; reflexivity.
Qed.

Lemma markdown_markup_reads_back_witness :
  forallb (not_in ["]"%char]) (L "cat") = true
  /\ L "x.png" <> []
  /\ forallb (not_in [")"%char; " "%char]) (L "x.png") = true
  /\ caption_image pets_env doc_path (L "x.png") no_world
     = Ok (L "cat", no_world)
  /\ hd_error (find_images_in_markdown
                 (md_markup (L "cat") (L "x.png") ++ L " above"))
     = Some (md, L "x.png", 0)
  /\ process_image pets_env doc_path true
       (LState (L "See " ++ md_markup (L "cat") (L "x.png") ++ L " above")
               [] no_world)
       (md, L "x.png", List.length (L "See "))
     = Ok (LState (L "See " ++ md_markup (L "cat") (L "x.png") ++ L " above")
                  ([] ++ [MkChange doc_path md (L "x.png") (L "cat") (L "cat")])
                  no_world).
Proof.
  assert (H1 : forallb (not_in ["]"%char]) (L "cat") = true) by reflexivity.
  assert (H2 : L "x.png" <> []) by discriminate.
  assert (H3 : forallb (not_in [")"%char; " "%char]) (L "x.png") = true)
    by reflexivity.
  assert (H4 : caption_image pets_env doc_path (L "x.png") no_world
               = Ok (L "cat", no_world)) by reflexivity.
  split; [exact H1|]. split; [exact H2|]. split; [exact H3|].
  split; [exact H4|].
  exact (markdown_markup_reads_back pets_env doc_path no_world no_world []
           (L "See ") (L " above") (L "cat") (L "x.png") H1 H2 H3 H4).
Defined.

(* ================================================================= *)
(** ** A tag that has no [alt] attribute *)

Lemma lstrip_free (c : ascii) (s : str) : free_of c s = true -> lstrip c s = s.
Proof.
  destruct s as [|x s]; [reflexivity|]. simpl. intros H.
  apply andb_prop in H. destruct H as [Hx _].
  now destruct (Ascii.eqb x c).
Qed.

Lemma free_of_rev (c : ascii) (s : str) :
  free_of c s = true -> free_of c (rev s) = true.
Proof.
  unfold free_of. rewrite !forallb_forall. intros H x Hin.
  apply H. now apply in_rev.
Qed.

(** Stripping the closing brackets takes one character from a text that
    has one closing bracket, at its end. *)
Lemma rstrip_one (c : ascii) (body : str) :
  free_of c body = true -> rstrip c (body ++ [c]) = body.
Proof.
  intros H. unfold rstrip. rewrite rev_app_distr. simpl.
  rewrite Ascii.eqb_refl, lstrip_free by now apply free_of_rev.
  apply rev_involutive.
Qed.

Lemma chr_eq_not (c x y : ascii) :
  chr_eq true c x = true -> chr_eq true c y = false -> Ascii.eqb x y = false.
Proof.
  intros Hx Hy. destruct (Ascii.eqb x y) eqn:E; [|reflexivity].
  apply Ascii.eqb_eq in E. subst. congruence.
Qed.

(** X4: whatever the tag, when it has no [alt] attribute the rewrite
    takes off its closing bracket, the only one it has, and puts the new
    attribute and the bracket back: the tag keeps all it had and stays
    one tag. *)
Theorem tag_without_alt_gets_attribute (txt : str) (p : nat) (m : rmatch)
    (C src : str) :
  find_again html txt p = Some m ->
  has_match ALT_RE (group txt m 0) = false ->
  exists body,
    group txt m 0 = body ++ L ">"
    /\ free_of ">" body = true
    /\ rewrite html txt m C src
       = Ok (firstn (m_start m) txt
             ++ (body ++ L " alt=" ++ q C ++ L ">")
             ++ skipn (m_end m) txt).
Proof.
  intros Hm Hno. simpl in Hm.
  destruct (search_inv _ _ _ _ Hm) as [Hle Hmatch].
  apply html_match_inv in Hmatch.
  destruct Hmatch as (c1 & c2 & c3 & c4 & body & tail & Hrs & E1 & E2 & E3 & E4
                      & Hbody & _ & Hend).
  assert (Htag : group txt m 0 = (c1 :: c2 :: c3 :: c4 :: body) ++ L ">").
  { unfold group. replace (m_end m)
      with (m_start m + List.length ((c1 :: c2 :: c3 :: c4 :: body) ++ L ">"))
      by (rewrite length_app; simpl; lia).
    apply slice_of_rest with (p := m_start m) (pre := []) (post := tail).
    - exact Hle.
    - rewrite Hrs. simpl. rewrite <- app_assoc. reflexivity.
    - simpl. lia. }
  assert (Hfree : free_of ">" (c1 :: c2 :: c3 :: c4 :: body) = true).
  { unfold free_of. simpl.
    rewrite (chr_eq_not _ _ ">" E1), (chr_eq_not _ _ ">" E2),
            (chr_eq_not _ _ ">" E3), (chr_eq_not _ _ ">" E4) by reflexivity.
    simpl. apply forallb_forall. intros x Hin.
    rewrite forallb_forall in Hbody. specialize (Hbody x Hin).
    unfold not_in in Hbody. simpl in Hbody.
    now rewrite orb_false_r in Hbody. }
  exists (c1 :: c2 :: c3 :: c4 :: body).
  split; [exact Htag|]. split; [exact Hfree|].
  unfold rewrite, new_tag. rewrite Hno, Htag.
  change (L ">") with [">"%char]. rewrite rstrip_one by exact Hfree.
  reflexivity.
Qed.

Lemma tag_without_alt_gets_attribute_witness :
  find_again html quote_text 0 = Some (RMatch 0 17 [])
  /\ has_match ALT_RE (group quote_text (RMatch 0 17 []) 0) = false
  /\ exists body,
       group quote_text (RMatch 0 17 []) 0 = body ++ L ">"
       /\ free_of ">" body = true
       /\ rewrite html quote_text (RMatch 0 17 []) quote_caption (L "x.png")
          = Ok (firstn (m_start (RMatch 0 17 [])) quote_text
                ++ (body ++ L " alt=" ++ q quote_caption ++ L ">")
                ++ skipn (m_end (RMatch 0 17 [])) quote_text).
Proof.
  assert (Hm : find_again html quote_text 0 = Some (RMatch 0 17 []))
    by reflexivity.
  assert (Hno : has_match ALT_RE (group quote_text (RMatch 0 17 []) 0) = false)
    by reflexivity.
  split; [exact Hm|]. split; [exact Hno|].
  exact (tag_without_alt_gets_attribute quote_text 0 (RMatch 0 17 [])
           quote_caption (L "x.png") Hm Hno).
Defined.

(* ================================================================= *)
(** ** More on the path resolver *)

(** X5: the resolver returns [None] for the sources that begin with
    [http://] or [https://] and for no other source, whatever exists on
    disk. *)
Theorem resolver_none_iff_remote (E : Env) (src : str) (md_path : Path) :
  resolve_image_path E src md_path = Ok None
  <-> startswith (L "http://") src || startswith (L "https://") src = true.
Proof.
  unfold resolve_image_path. rewrite is_remote_strip_query.
  change (startswith (L "http://") src || startswith (L "https://") src)
    with (is_remote src).
  destruct (is_remote src); [now split|].
  assert (Hhd : exists c,
            hd_error (candidates (strip_query src) md_path) = Some c).
  { unfold candidates. destruct (startswith (L "/") (strip_query src));
      eexists; reflexivity. }
  destruct Hhd as [c Hc].
  destruct (first_existing E _) as [[r|]|e]; cbn [bind]; [|rewrite Hc|];
    split; discriminate.
Qed.

Lemma before_free (c : ascii) (s : str) : free_of c s = true -> before c s = s.
Proof.
  induction s as [|x s IH]; [reflexivity|]. simpl. intros H.
  apply andb_prop in H. destruct H as [Hx Hs].
  destruct (Ascii.eqb x c); [discriminate|]. now rewrite IH.
Qed.

Lemma before_app_hit (c : ascii) (s t : str) :
  free_of c s = true -> before c (s ++ c :: t) = s.
Proof.
  induction s as [|x s IH]; simpl; intros H.
  - now rewrite Ascii.eqb_refl.
  - apply andb_prop in H. destruct H as [Hx Hs].
    destruct (Ascii.eqb x c); [discriminate|]. now rewrite IH.
Qed.

Lemma before_app_free (c : ascii) (s t : str) :
  free_of c s = true -> before c (s ++ t) = s ++ before c t.
Proof.
  induction s as [|x s IH]; simpl; intros H; [reflexivity|].
  apply andb_prop in H. destruct H as [Hx Hs].
  destruct (Ascii.eqb x c); [discriminate|]. now rewrite IH.
Qed.

(** A query string or a fragment after a source without either is cut
    off. *)
Lemma strip_query_suffix (s t : str) (c : ascii) :
  c = "?"%char \/ c = "#"%char ->
  free_of "?" s = true -> free_of "#" s = true ->
  strip_query (s ++ c :: t) = s.
Proof.
  intros [-> | ->] Hq Hf; unfold strip_query.
  - rewrite before_app_hit by exact Hq. now apply before_free.
  - rewrite before_app_free by exact Hq. simpl. now apply before_app_hit.
Qed.

(** X6: a query string or a fragment does not change where an image is
    looked for: the source with a [?...] or [#...] suffix resolves like
    the source without it. *)
Theorem resolver_ignores_query (E : Env) (s t : str) (c : ascii)
    (md_path : Path) :
  c = "?"%char \/ c = "#"%char ->
  free_of "?" s = true -> free_of "#" s = true ->
  resolve_image_path E (s ++ c :: t) md_path = resolve_image_path E s md_path.
Proof.
  intros Hc Hq Hf. unfold resolve_image_path.
  rewrite (strip_query_suffix s t c Hc Hq Hf).
  unfold strip_query. now rewrite (before_free "?" s Hq), (before_free "#" s Hf).
Qed.

Lemma resolver_ignores_query_witness :
  ("?"%char = "?"%char \/ "?"%char = "#"%char)
  /\ free_of "?" (L "img/a.png") = true
  /\ free_of "#" (L "img/a.png") = true
  /\ resolve_image_path static_env (L "img/a.png" ++ "?"%char :: L "v=2")
       doc_path
     = resolve_image_path static_env (L "img/a.png") doc_path.
Proof.
  assert (Hc : "?"%char = "?"%char \/ "?"%char = "#"%char)
    by (left; reflexivity).
  assert (Hq : free_of "?" (L "img/a.png") = true) by reflexivity.
  assert (Hf : free_of "#" (L "img/a.png") = true) by reflexivity.
  split; [exact Hc|]. split; [exact Hq|]. split; [exact Hf|].
  exact (resolver_ignores_query static_env (L "img/a.png") (L "v=2") "?"
           doc_path Hc Hq Hf).
Defined.

(* ================================================================= *)
(** ** The report of a run *)

(** What captioning keeps true of the world stays true over the rounds
    of the loop. *)
Lemma process_images_world (E : Env) (path : Path) (apply : bool)
    (Inv : World -> Prop) :
  (forall w src c w', Inv w -> caption_image E path src w = Ok (c, w') ->
                      Inv w') ->
  forall images st st',
    process_images E path apply st images = Ok st' ->
    Inv (l_world st) -> Inv (l_world st').
Proof.
  intros Hcap. induction images as [|img images IH]; intros st st' H Hst;
    simpl in H.
  - now injection H as <-.
  - destruct (process_image E path apply st img) as [st1|e] eqn:Hround;
      [|discriminate].
    simpl in H. apply (IH _ _ H). clear H IH.
    destruct img as [[k src] p].
    destruct (process_image_inv _ _ _ _ _ _ _ _ Hround)
      as [[_ ->] | (m & cap & w' & t & _ & Hc & _ & ->)]; [exact Hst|].
    exact (Hcap _ _ _ _ Hst Hc).
Qed.

(** The rounds of a loop never touch the stored documents. *)
Lemma process_images_docs (E : Env) (path : Path) (apply : bool)
    (images : list image) (st st' : lstate) :
  process_images E path apply st images = Ok st' ->
  w_docs (l_world st') = w_docs (l_world st).
Proof.
  intros H.
  apply (process_images_world E path apply
           (fun w0 => w_docs w0 = w_docs (l_world st))
           (fun w0 src c w1 Hw Hc =>
              eq_trans (caption_image_docs E path src w0 w1 c Hc) Hw)
           _ _ _ H eq_refl).
Qed.

(** Rounds that do not rewrite: every image is found again and
    captioned and, in apply mode, has an empty caption.  The text stays
    and every image gets the row of a dry run. *)
Lemma process_images_unrewritten (E : Env) (path : Path) (apply : bool)
    (txt : str) (images : list image) :
  Forall (fun img =>
            (exists m, find_again (img_kind img) txt (img_start img) = Some m)
            /\ captioned E path (img_src img) = true
            /\ (apply = true -> caption_text E path (img_src img) = []))
         images ->
  forall chg w,
  exists w',
    process_images E path apply (LState txt chg w) images
    = Ok (LState txt (chg ++ map (dry_row E path txt) images) w').
Proof.
  induction 1 as [|img images ([m Hm] & Hc & Hcap) _ IH]; intros chg w.
  - exists w. simpl. now rewrite app_nil_r.
  - destruct img as [[k src] p]. cbn [img_kind img_src img_start fst snd] in *.
    simpl process_images. unfold process_image. cbn [l_txt l_changes l_world].
    rewrite Hm.
    destruct (captioned_answers E path src w Hc) as (w1 & -> & _).
    cbn [bind].
    assert (Hb : apply && truthy (caption_text E path src) = false).
    { destruct apply; [|reflexivity]. now rewrite Hcap. }
    rewrite Hb. simpl bind.
    destruct (IH (chg ++ [MkChange path k src (old_alt_of k txt m)
                            (caption_text E path src)]) w1) as [w' Hp].
    exists w'. rewrite Hp. rewrite <- app_assoc. simpl.
    unfold dry_row at 2. cbn [img_kind img_src img_start fst snd].
    now rewrite Hm.
Qed.

Lemma located_found (text : str) :
  Forall (fun img => exists m,
            find_again (img_kind img) text (img_start img) = Some m)
         (find_images_in_markdown text).
Proof.
  apply Forall_forall. intros img Hin.
  destruct (located_found_again text img Hin) as (m & Hm & _). now exists m.
Qed.

(** The located images of a text are found again and, when the checks
    answer, captioned. *)
Lemma located_captioned (E : Env) (path : Path) (txt : str) :
  checks_answer_in E path txt = true ->
  Forall (fun img =>
            (exists m, find_again (img_kind img) txt (img_start img) = Some m)
            /\ captioned E path (img_src img) = true
            /\ (false = true -> caption_text E path (img_src img) = []))
         (find_images_in_markdown txt).
Proof.
  intros Hchk. apply checks_answer_in_captioned in Hchk.
  rewrite forallb_forall in Hchk.
  apply Forall_forall. intros img Hin.
  split; [|split; [now apply Hchk | discriminate]].
  destruct (located_found_again txt img Hin) as (m & Hm & _). now exists m.
Qed.

(** The rows and the world of a dry run. *)
Lemma process_file_dry (E : Env) (w : World) (path : Path) (txt : str) :
  read_text (w_docs w) path = Some txt ->
  checks_answer_in E path txt = true ->
  exists w',
    process_file E w path false
    = Ok (map (dry_row E path txt) (find_images_in_markdown txt), w')
    /\ w_docs w' = w_docs w.
Proof.
  intros Hread Hchk.
  destruct (process_images_unrewritten E path false txt _
              (located_captioned E path txt Hchk) [] w) as [w' Hp].
  exists w'. unfold process_file. rewrite Hread, Hp. simpl.
  split; [reflexivity|].
  exact (process_images_docs E path false _ _ _ Hp).
Qed.

(** X7: when the existence checks for the located images answer, the
    report of a dry run is decided by the text alone, image by image:
    for every located image, in the locator's order, the row holds its
    kind and source, the alt text its match has in the text, and the
    caption computed for its source; no document is written. *)
Theorem dry_run_report (E : Env) (w : World) (path : Path) (txt : str) :
  read_text (w_docs w) path = Some txt ->
  checks_answer_in E path txt = true ->
  exists w',
    process_file E w path false
    = Ok (map (dry_row E path txt) (find_images_in_markdown txt), w')
    /\ w_docs w' = w_docs w.
Proof.
  intros Hread Hchk.
  assert (Hall : Forall (fun img =>
            (exists m, find_again (img_kind img) txt (img_start img) = Some m)
            /\ captioned E path (img_src img) = true
            /\ (false = true -> caption_text E path (img_src img) = []))
            (find_images_in_markdown txt)).
  { apply checks_answer_in_captioned in Hchk.
    rewrite forallb_forall in Hchk.
    apply Forall_forall. intros img Hin.
    split; [|split; [now apply Hchk | discriminate]].
    destruct (located_found_again txt img Hin) as (m & Hm & _). now exists m. }
  destruct (process_images_unrewritten E path false txt _ Hall [] w)
    as [w' Hp].
  exists w'. unfold process_file. rewrite Hread, Hp. simpl.
  split; [reflexivity|].
  exact (process_images_docs E path false _ _ _ Hp).
Qed.

Lemma dry_run_report_witness :
  read_text (w_docs (one_doc pets_text)) doc_path = Some pets_text
  /\ checks_answer_in pets_env doc_path pets_text = true
  /\ exists w',
       process_file pets_env (one_doc pets_text) doc_path false
       = Ok (map (dry_row pets_env doc_path pets_text)
               (find_images_in_markdown pets_text), w')
       /\ w_docs w' = w_docs (one_doc pets_text).
Proof.
  assert (Hread : read_text (w_docs (one_doc pets_text)) doc_path
                  = Some pets_text) by reflexivity.
  assert (Hchk : checks_answer_in pets_env doc_path pets_text = true)
    by (vm_compute; reflexivity).
  split; [exact Hread|]. split; [exact Hchk|].
  exact (dry_run_report pets_env (one_doc pets_text) doc_path pets_text Hread
           Hchk).
Defined.

(** In either mode every row is about the document, and its caption is
    the one computed for its source. *)
Lemma process_images_captions (E : Env) (path : Path) (apply : bool) :
  forall images st st',
    process_images E path apply st images = Ok st' ->
    Forall (fun r => c_path r = path
                     /\ c_caption r = caption_text E path (c_src r))
           (l_changes st) ->
    Forall (fun r => c_path r = path
                     /\ c_caption r = caption_text E path (c_src r))
           (l_changes st').
Proof.
  induction images as [|img images IH]; intros st st' H Hst; simpl in H.
  - now injection H as <-.
  - destruct (process_image E path apply st img) as [st1|e] eqn:Hround;
      [|discriminate].
    simpl in H. apply (IH _ _ H). clear H IH.
    destruct img as [[k src] p].
    destruct (process_image_inv _ _ _ _ _ _ _ _ Hround)
      as [[_ ->] | (m & cap & w' & t & _ & Hc & _ & ->)]; [exact Hst|].
    cbn [l_changes]. apply Forall_app. split; [exact Hst|].
    repeat constructor. simpl.
    exact (caption_image_text _ _ _ _ _ _ Hc).
Qed.

(** X8: in either mode the report of a run that ends has at most one row
    per located image, in the locator's order and with the kind and
    source of the image; every row names the document, and its caption
    is the one computed for its source alone. *)
Theorem rows_follow_images (E : Env) (w w' : World) (path : Path)
    (apply : bool) (txt : str) (rows : list ChangeRecord) :
  read_text (w_docs w) path = Some txt ->
  process_file E w path apply = Ok (rows, w') ->
  subseq (map row_key rows) (map image_key (find_images_in_markdown txt))
  /\ Forall (fun r => c_path r = path
                      /\ c_caption r = caption_text E path (c_src r)) rows.
Proof.
  intros Hread H. split; [exact (process_file_rows E w w' path apply txt rows
                                   Hread H)|].
  destruct (process_file_inv E w w' path apply txt rows Hread H)
    as (st & Hp & -> & _).
  exact (process_images_captions E path apply _ _ _ Hp (Forall_nil _)).
Qed.

Lemma rows_follow_images_witness :
  read_text (w_docs (one_doc pets_text)) doc_path = Some pets_text
  /\ process_file pets_env (one_doc pets_text) doc_path true
     = Ok ([pets_row_x], rewritten pets_text (L "![cat](x.png) ![b](y.png)"))
  /\ subseq (map row_key [pets_row_x])
            (map image_key (find_images_in_markdown pets_text))
  /\ Forall (fun r => c_path r = doc_path
                      /\ c_caption r = caption_text pets_env doc_path (c_src r))
            [pets_row_x].
Proof.
  assert (Hread : read_text (w_docs (one_doc pets_text)) doc_path
                  = Some pets_text) by reflexivity.
  assert (Hrun : process_file pets_env (one_doc pets_text) doc_path true
                 = Ok ([pets_row_x],
                       rewritten pets_text (L "![cat](x.png) ![b](y.png)")))
    by (vm_compute; reflexivity).
  split; [exact Hread|]. split; [exact Hrun|].
  exact (rows_follow_images pets_env (one_doc pets_text)
           (rewritten pets_text (L "![cat](x.png) ![b](y.png)")) doc_path true
           pets_text [pets_row_x] Hread Hrun).
Defined.

(* ================================================================= *)
(** ** What an apply run writes *)

Lemma Path_eqb_refl (a : Path) : Path_eqb a a = true.
Proof. unfold Path_eqb. now destruct (Path_eq_dec a a). Qed.

Lemma Path_eqb_neq (a b : Path) : a <> b -> Path_eqb a b = false.
Proof. unfold Path_eqb. now destruct (Path_eq_dec a b). Qed.

Lemma read_text_filter (docs : list (Path * str)) (p q : Path) :
  q <> p ->
  read_text (filter (fun d => negb (Path_eqb (fst d) p)) docs) q
  = read_text docs q.
Proof.
  intros Hne. induction docs as [|[a t] docs IH]; [reflexivity|]. simpl.
  destruct (Path_eq_dec a p) as [->|Hap].
  - rewrite Path_eqb_refl. simpl.
    rewrite (Path_eqb_neq p q) by congruence. exact IH.
  - rewrite (Path_eqb_neq a p) by exact Hap. simpl. now rewrite IH.
Qed.

(** Reading what was written. *)
Lemma read_text_write_same (w : World) (p : Path) (t : str) :
  read_text (w_docs (put_text w p t)) p = Some t.
Proof. simpl. now rewrite Path_eqb_refl. Qed.

(** Writing one document leaves the others. *)
Lemma read_text_write_other (w : World) (p q : Path) (t : str) :
  q <> p -> read_text (w_docs (put_text w p t)) q = read_text (w_docs w) q.
Proof.
  intros Hne. simpl. rewrite (Path_eqb_neq p q) by congruence.
  now apply read_text_filter.
Qed.

(** The backup is never the document itself. *)
Lemma bak_path_differs (a : Path) : bak_path a <> a.
Proof.
  destruct a as [ab parts]. unfold bak_path. simpl. intros H.
  injection H as H.
  destruct (list_eq_dec (list_eq_dec ascii_dec) parts []) as [->|Hne].
  - discriminate.
  - pose proof (app_removelast_last [] Hne) as Hparts.
    rewrite Hparts in H at 3.
    apply app_inj_tail in H. destruct H as [_ H].
    apply (f_equal (@List.length ascii)) in H.
    rewrite length_app in H. unfold str in H. simpl in H. lia.
Qed.

(** X9: an apply run that ends either writes no document at all, or it
    has changed the text, and then the document holds the new text, the
    file next to it with [.bak] added holds the text as it was read, and
    every other document is as before. *)
Theorem apply_run_backs_up (E : Env) (w w' : World) (path : Path)
    (txt : str) (rows : list ChangeRecord) :
  read_text (w_docs w) path = Some txt ->
  process_file E w path true = Ok (rows, w') ->
  w_docs w' = w_docs w
  \/ (exists new,
        new <> txt
        /\ read_text (w_docs w') path = Some new
        /\ read_text (w_docs w') (bak_path path) = Some txt
        /\ forall q, q <> path -> q <> bak_path path ->
                     read_text (w_docs w') q = read_text (w_docs w) q).
Proof.
  intros Hread H.
  destruct (process_file_inv E w w' path true txt rows Hread H)
    as (st & Hp & _ & [[_ ->] | (Hne & _ & _ & ->)]);
    pose proof (process_images_docs E path true _ _ _ Hp) as Hdocs;
    simpl in Hdocs.
  - now left.
  - right. exists (l_txt st). simpl in Hne.
    apply negb_true_iff, str_eqb_neq in Hne. split; [exact Hne|].
    split; [apply read_text_write_same|]. split.
    + rewrite read_text_write_other by apply bak_path_differs.
      apply read_text_write_same.
    + intros q Hq Hb.
      rewrite !read_text_write_other by assumption.
      now rewrite Hdocs.
Qed.

Lemma apply_run_backs_up_witness :
  read_text (w_docs (one_doc title_text)) doc_path = Some title_text
  /\ process_file pets_env (one_doc title_text) doc_path true
     = Ok ([MkChange doc_path md (L "x.png") (L "cat") (L "cat")],
           rewritten title_text (L "![cat](x.png)"))
  /\ (w_docs (rewritten title_text (L "![cat](x.png)"))
      = w_docs (one_doc title_text)
      \/ (exists new,
            new <> title_text
            /\ read_text (w_docs (rewritten title_text (L "![cat](x.png)")))
                 doc_path = Some new
            /\ read_text (w_docs (rewritten title_text (L "![cat](x.png)")))
                 (bak_path doc_path) = Some title_text
            /\ forall q, q <> doc_path -> q <> bak_path doc_path ->
                 read_text (w_docs (rewritten title_text (L "![cat](x.png)"))) q
                 = read_text (w_docs (one_doc title_text)) q)).
Proof.
  assert (Hread : read_text (w_docs (one_doc title_text)) doc_path
                  = Some title_text) by reflexivity.
  assert (Hrun : process_file pets_env (one_doc title_text) doc_path true
                 = Ok ([MkChange doc_path md (L "x.png") (L "cat") (L "cat")],
                       rewritten title_text (L "![cat](x.png)")))
    by (vm_compute; reflexivity).
  split; [exact Hread|]. split; [exact Hrun|].
  exact (apply_run_backs_up pets_env (one_doc title_text)
           (rewritten title_text (L "![cat](x.png)")) doc_path title_text
           [MkChange doc_path md (L "x.png") (L "cat") (L "cat")] Hread Hrun).
Defined.

(* ================================================================= *)
(** ** Runs that end *)

Lemma alt_attr_plain (cap : str) :
  free_of bsl cap = true -> free_of bsl (alt_attr cap) = true.
Proof.
  intros H. unfold alt_attr, free_of in *. simpl.
  now rewrite forallb_app, H.
Qed.

(** With a caption that has no backslash the rewrite of an image never
    raises. *)
Lemma rewrite_plain_ok (k : kind) (txt : str) (m : rmatch) (cap src : str) :
  free_of bsl cap = true -> exists t, rewrite k txt m cap src = Ok t.
Proof.
  intros H. destruct k; simpl; [eexists; reflexivity|].
  unfold new_tag. destruct (has_match ALT_RE _); [|eexists; reflexivity].
  unfold sub. rewrite parse_template_plain by now apply alt_attr_plain.
  eexists. reflexivity.
Qed.

Lemma process_images_plain_ok (E : Env) (path : Path) (apply : bool) :
  forall images,
    forallb (fun img => checks_answer E path (img_src img)) images = true ->
    forallb (fun img => free_of bsl (caption_text E path (img_src img)))
            images = true ->
    forall st, exists st', process_images E path apply st images = Ok st'.
Proof.
  induction images as [|img images IH]; intros Hchk Hall st; simpl.
  - now exists st.
  - simpl in Hall, Hchk.
    apply andb_prop in Hall. destruct Hall as [Himg Hall].
    apply andb_prop in Hchk. destruct Hchk as [Hc Hchk].
    assert (Hround : exists st1, process_image E path apply st img = Ok st1).
    { destruct img as [[k src] p]. unfold process_image.
      unfold img_src in Himg, Hc. cbn [fst snd] in Himg, Hc.
      destruct (find_again k (l_txt st) p) as [m|]; [|now exists st].
      destruct (captioned_answers E path src (l_world st)
                  (checks_answer_captioned E path src Hc)) as (w' & -> & _).
      cbn [bind].
      destruct (apply && truthy _); [|eexists; reflexivity].
      destruct (rewrite_plain_ok k (l_txt st) m _ src Himg) as [t ->].
      eexists. reflexivity. }
    destruct Hround as [st1 ->]. simpl. apply IH; assumption.
Qed.

(** X10: after the read, the exceptions that can leave [process_file]
    are the one of an existence check, the one of a write, and the one
    [ALT_RE.sub] raises on a replacement with a backslash.  When the
    checks for the located images answer, no caption of these images
    holds a backslash and, in apply mode, the backup and the document can
    be written, a run on a document that can be read ends with a
    report. *)
Theorem plain_captions_never_abort (E : Env) (w : World) (path : Path)
    (apply : bool) (txt : str) :
  read_text (w_docs w) path = Some txt ->
  checks_answer_in E path txt = true ->
  forallb (fun img => free_of bsl (caption_text E path (img_src img)))
          (find_images_in_markdown txt) = true ->
  (apply = true ->
   e_writable E (bak_path path) = true /\ e_writable E path = true) ->
  exists rows w', process_file E w path apply = Ok (rows, w').
Proof.
  intros Hread Hchk Hall Hwr. unfold process_file. rewrite Hread.
  destruct (process_images_plain_ok E path apply _ Hchk Hall (LState txt [] w))
    as [st ->].
  cbn [bind]. destruct apply; cbn [andb]; [|eexists _, _; reflexivity].
  destruct (negb (str_eqb (l_txt st) txt)); [|eexists _, _; reflexivity].
  destruct (Hwr eq_refl) as [Hb Hp]. unfold write_text.
  rewrite Hb. cbn [bind]. rewrite Hp. cbn [bind].
  eexists _, _; reflexivity.
Qed.

Lemma plain_captions_never_abort_witness :
  read_text (w_docs (one_doc tags_text)) doc_path = Some tags_text
  /\ checks_answer_in pets_env doc_path tags_text = true
  /\ forallb (fun img => free_of bsl (caption_text pets_env doc_path
                                       (img_src img)))
             (find_images_in_markdown tags_text) = true
  /\ (true = true ->
      e_writable pets_env (bak_path doc_path) = true
      /\ e_writable pets_env doc_path = true)
  /\ exists rows w',
       process_file pets_env (one_doc tags_text) doc_path true = Ok (rows, w').
Proof.
  assert (Hread : read_text (w_docs (one_doc tags_text)) doc_path
                  = Some tags_text) by reflexivity.
  assert (Hchk : checks_answer_in pets_env doc_path tags_text = true)
    by (vm_compute; reflexivity).
  assert (Hall : forallb (fun img => free_of bsl (caption_text pets_env doc_path
                                       (img_src img)))
                         (find_images_in_markdown tags_text) = true)
    by (vm_compute; reflexivity).
  assert (Hwr : true = true ->
                e_writable pets_env (bak_path doc_path) = true
                /\ e_writable pets_env doc_path = true)
    by (intros _; split; reflexivity).
  split; [exact Hread|]. split; [exact Hchk|]. split; [exact Hall|].
  split; [exact Hwr|].
  exact (plain_captions_never_abort pets_env (one_doc tags_text) doc_path true
           tags_text Hread Hchk Hall Hwr).
Defined.

(* ================================================================= *)
(** ** Documents without images *)

Lemma free_of_not_in (c : ascii) (s : str) : free_of c s = true -> ~ In c s.
Proof.
  unfold free_of. rewrite forallb_forall. intros H Hin.
  specialize (H c Hin). now rewrite Ascii.eqb_refl in H.
Qed.

Lemma in_skipn_text (c : ascii) (n : nat) (txt : str) :
  In c (skipn n txt) -> In c txt.
Proof.
  intros H. rewrite <- (firstn_skipn n txt). apply in_or_app. now right.
Qed.

Lemma finditer_md_needs_bang (txt : str) :
  free_of "!" txt = true -> finditer MD_IMG_RE txt = [].
Proof.
  intros Hfree. destruct (finditer MD_IMG_RE txt) as [|m l] eqn:Hf;
    [reflexivity|]. exfalso.
  assert (Hin : In m (finditer MD_IMG_RE txt)) by (rewrite Hf; now left).
  destruct (finditer_from_found MD_IMG_RE txt txt 0 None 0 m eq_refl eq_refl
              (Nat.le_0_l _) Hin) as [_ Hm].
  apply md_match_inv in Hm. destruct Hm as (alt & src & tail & Hrs & _).
  apply (free_of_not_in _ _ Hfree), (in_skipn_text _ (m_start m)).
  rewrite Hrs. now left.
Qed.

Lemma finditer_html_needs_bracket (txt : str) :
  free_of "<" txt = true -> finditer HTML_IMG_RE txt = [].
Proof.
  intros Hfree. destruct (finditer HTML_IMG_RE txt) as [|m l] eqn:Hf;
    [reflexivity|]. exfalso.
  assert (Hin : In m (finditer HTML_IMG_RE txt)) by (rewrite Hf; now left).
  destruct (finditer_from_found HTML_IMG_RE txt txt 0 None 0 m eq_refl eq_refl
              (Nat.le_0_l _) Hin) as [_ Hm].
  apply html_match_inv in Hm.
  destruct Hm as (c1 & c2 & c3 & c4 & body & tail & Hrs & E1 & _).
  assert (c1 = "<"%char) as ->.
  { destruct c1 as [[] [] [] [] [] [] [] []]; try discriminate E1; reflexivity. }
  apply (free_of_not_in _ _ Hfree), (in_skipn_text _ (m_start m)).
  rewrite Hrs. now left.
Qed.

(** X11: a document with no exclamation mark and no opening angle
    bracket has no image, and a run on it, in either mode, reports
    nothing and leaves the world as it is: no write, no backup, no
    captioning. *)
Theorem no_markup_no_change (E : Env) (w : World) (path : Path)
    (apply : bool) (txt : str) :
  free_of "!" txt = true -> free_of "<" txt = true ->
  read_text (w_docs w) path = Some txt ->
  find_images_in_markdown txt = []
  /\ process_file E w path apply = Ok ([], w).
Proof.
  intros Hb Ha Hread.
  assert (Hnone : find_images_in_markdown txt = []).
  { unfold find_images_in_markdown.
    now rewrite finditer_md_needs_bang, finditer_html_needs_bracket. }
  split; [exact Hnone|].
  unfold process_file. rewrite Hread, Hnone. simpl.
  rewrite str_eqb_refl. simpl. now rewrite andb_false_r.
Qed.

Lemma no_markup_no_change_witness :
  free_of "!" (L "Plain words, no pictures.") = true
  /\ free_of "<" (L "Plain words, no pictures.") = true
  /\ read_text (w_docs (one_doc (L "Plain words, no pictures."))) doc_path
     = Some (L "Plain words, no pictures.")
  /\ find_images_in_markdown (L "Plain words, no pictures.") = []
  /\ process_file pets_env (one_doc (L "Plain words, no pictures.")) doc_path
       true
     = Ok ([], one_doc (L "Plain words, no pictures.")).
Proof.
  assert (Hb : free_of "!" (L "Plain words, no pictures.") = true)
    by reflexivity.
  assert (Ha : free_of "<" (L "Plain words, no pictures.") = true)
    by reflexivity.
  assert (Hread : read_text (w_docs (one_doc (L "Plain words, no pictures.")))
                    doc_path = Some (L "Plain words, no pictures."))
    by reflexivity.
  split; [exact Hb|]. split; [exact Ha|]. split; [exact Hread|].
  exact (no_markup_no_change pets_env (one_doc (L "Plain words, no pictures."))
           doc_path true (L "Plain words, no pictures.") Hb Ha Hread).
Defined.

(* ================================================================= *)
(** ** Runs of [main] *)

Lemma token_unset (hf_token : option str) (ex : Path -> option bool)
    (wr : Path -> bool) (local : option (Path -> outcome))
    (api : fileref -> str -> outcome) (get : str -> outcome) :
  hf_token = None \/ hf_token = Some [] ->
  token_set (main_env ex wr local hf_token api get) = None
  /\ e_caption_func (main_env ex wr local hf_token api get) = local.
Proof. intros [-> | ->]; split; reflexivity. Qed.

Lemma resolve_image_path_ext (E E' : Env) (src : str) (md_path : Path) :
  e_exists E = e_exists E' ->
  resolve_image_path E src md_path = resolve_image_path E' src md_path.
Proof.
  intros Hex. unfold resolve_image_path.
  assert (H : forall cs, first_existing E cs = first_existing E' cs).
  { induction cs as [|c cs IH]; [reflexivity|]. simpl.
    unfold Path_exists. rewrite Hex.
    destruct (e_exists E' c) as [[|]|]; simpl; [reflexivity | exact IH
                                                | reflexivity]. }
  now rewrite H.
Qed.

(** Without a token that is set, captioning makes no remote call and
    leaves the world as it is. *)
Lemma caption_image_no_token (E E' : Env) (path : Path) (src : str)
    (w : World) :
  same_local E E' -> token_set E = None ->
  caption_image E path src w = caption_image E' path src w
  /\ forall c w', caption_image E path src w = Ok (c, w') -> w' = w.
Proof.
  intros (Hex & _ & Hcf & Htk) Htok.
  assert (Htok' : token_set E' = None)
    by (unfold token_set in *; now rewrite <- Htk).
  unfold caption_image.
  rewrite <- (resolve_image_path_ext E E' src path Hex), Htok, Htok', <- Hcf.
  destruct (resolve_image_path E src path) as [r|e]; cbn [bind];
    [|split; [reflexivity | discriminate]].
  assert (Hp : path_exists E' r = path_exists E r).
  { destruct r; [|reflexivity]. unfold path_exists, Path_exists.
    now rewrite Hex. }
  rewrite Hp.
  destruct (path_exists E r) as [b|e]; cbn [bind];
    [|split; [reflexivity | discriminate]].
  split; [reflexivity|]. intros c w' H.
  destruct b; [destruct r; [destruct (e_caption_func E)|]|];
    now injection H as _ <-.
Qed.



Section SameCaptions.

Variables E E' : Env.
Hypothesis same : forall path src w,
  caption_image E path src w = caption_image E' path src w.
Hypothesis same_writes : e_writable E = e_writable E'.

Lemma process_images_ext (path : Path) (apply : bool) :
  forall images st,
    process_images E path apply st images
    = process_images E' path apply st images.
Proof.
  induction images as [|img images IH]; intros st; [reflexivity|]. simpl.
  assert (Hround : process_image E path apply st img
                   = process_image E' path apply st img).
  { destruct img as [[k src] p]. unfold process_image. now rewrite same. }
  rewrite Hround. destruct (process_image E' path apply st img); simpl;
    [apply IH | reflexivity].
Qed.

Lemma process_file_ext (w : World) (path : Path) (apply : bool) :
  process_file E w path apply = process_file E' w path apply.
Proof.
  unfold process_file, write_text.
  destruct (read_text (w_docs w) path); [|reflexivity].
  now rewrite process_images_ext, same_writes.
Qed.

Lemma process_all_ext (apply : bool) :
  forall files w, process_all E w files apply = process_all E' w files apply.
Proof.
  induction files as [|f files IH]; intros w; [reflexivity|]. simpl.
  rewrite process_file_ext. destruct (process_file E' w f apply); simpl;
    [now rewrite IH | reflexivity].
Qed.

End SameCaptions.

(** What captioning keeps true of the transient files stays true over a
    run on a list of documents. *)
Lemma process_all_temps (E : Env) (apply : bool)
    (Inv : list nat -> nat -> Prop) :
  (forall path src w c w', Inv (w_temps w) (w_fresh w) ->
     caption_image E path src w = Ok (c, w') ->
     Inv (w_temps w') (w_fresh w')) ->
  forall files w rows w',
    process_all E w files apply = Ok (rows, w') ->
    Inv (w_temps w) (w_fresh w) -> Inv (w_temps w') (w_fresh w').
Proof.
  intros Hcap. induction files as [|f files IH]; intros w rows w' H Hw;
    simpl in H.
  - now injection H as _ <-.
  - destruct (process_file E w f apply) as [[rows1 w1]|e] eqn:Hfile;
      [|discriminate].
    simpl in H.
    destruct (process_all E w1 files apply) as [[rows2 w2]|e] eqn:Hrest;
      [|discriminate].
    simpl in H. injection H as _ <-.
    apply (IH _ _ _ Hrest). clear IH Hrest.
    destruct (read_text (w_docs w) f) as [txt|] eqn:Hread;
      [|unfold process_file in Hfile; rewrite Hread in Hfile; discriminate].
    destruct (process_file_inv E w w1 f apply txt rows1 Hread Hfile)
      as (st & Hp & _ & Hw1).
    pose proof (process_images_world E f apply
                  (fun w0 => Inv (w_temps w0) (w_fresh w0))
                  (fun w0 src => Hcap f src w0) _ _ _ Hp Hw) as Hst.
    destruct Hw1 as [[_ ->] | (_ & _ & _ & ->)]; exact Hst.
Qed.

(** X12: when [HF_API_TOKEN] is not set or is empty, a run of [main]
    makes no remote call (its result does not depend on what the remote
    calls would answer) and creates no transient file, whatever the
    local captioner and the mode. *)
Theorem main_without_token_stays_local (ex : Path -> option bool)
    (wr : Path -> bool)
    (local : option (Path -> outcome)) (hf_token : option str)
    (api api' : fileref -> str -> outcome) (get get' : str -> outcome)
    (report_path : Path) (w : World) (md_files : list Path) (apply : bool) :
  hf_token = None \/ hf_token = Some [] ->
  main ex wr local hf_token api get report_path w md_files apply
  = main ex wr local hf_token api' get' report_path w md_files apply
  /\ forall o, main ex wr local hf_token api get report_path w md_files apply = Ok o ->
       w_temps (o_world o) = w_temps w /\ w_fresh (o_world o) = w_fresh w.
Proof.
  intros Htok.
  destruct (token_unset hf_token ex wr local api get Htok) as [Hset _].
  assert (Hsame : forall path src w0,
            caption_image (main_env ex wr local hf_token api get) path src w0
            = caption_image (main_env ex wr local hf_token api' get') path src
                w0
            /\ forall c w', caption_image (main_env ex wr local hf_token api get)
                              path src w0 = Ok (c, w') -> w' = w0).
  { intros path src w0. apply caption_image_no_token; [|exact Hset].
    repeat split. }
  split.
  - unfold main.
    rewrite (process_all_ext _ _ (fun p s w0 => proj1 (Hsame p s w0)) eq_refl).
    reflexivity.
  - intros o H. unfold main in H.
    destruct (process_all _ w md_files apply) as [[rows w']|e] eqn:Hp;
      [|discriminate].
    simpl in H. destruct (wr report_path); [|discriminate].
    injection H as <-. simpl.
    apply (process_all_temps _ apply
             (fun ts n => ts = w_temps w /\ n = w_fresh w)) in Hp.
    + exact Hp.
    + intros path src w0 c w1 Hw0 Hc.
      now rewrite (proj2 (Hsame path src w0) c w1 Hc).
    + now split.
Qed.

Lemma main_without_token_stays_local_witness :
  ((None : option str) = None \/ (None : option str) = Some [])
  /\ main (answering pets_exist) any_path (e_caption_func pets_env) None
       (fun _ _ => Raises (L "no token")) (fun _ => Raises (L "offline"))
       REPORT_CSV (one_doc pets_text) [doc_path] true
     = main (answering pets_exist) any_path (e_caption_func pets_env) None
         (fun _ _ => Returns (L "a cat")) (fun _ => Returns (L "PNGDATA"))
         REPORT_CSV (one_doc pets_text) [doc_path] true
  /\ forall o,
       main (answering pets_exist) any_path (e_caption_func pets_env) None
         (fun _ _ => Raises (L "no token")) (fun _ => Raises (L "offline"))
         REPORT_CSV (one_doc pets_text) [doc_path] true = Ok o ->
       w_temps (o_world o) = w_temps (one_doc pets_text)
       /\ w_fresh (o_world o) = w_fresh (one_doc pets_text).
Proof.
  assert (Htok : (None : option str) = None \/ (None : option str) = Some [])
    by (left; reflexivity).
  split; [exact Htok|].
  exact (main_without_token_stays_local (answering pets_exist) any_path
           (e_caption_func pets_env)
           None (fun _ _ => Raises (L "no token"))
           (fun _ _ => Returns (L "a cat")) (fun _ => Raises (L "offline"))
           (fun _ => Returns (L "PNGDATA")) REPORT_CSV (one_doc pets_text)
           [doc_path] true Htok).
Defined.





Example main_dry_run_rows :
  option_map (fun r => map (map string_of_list_ascii) r)
    (match main (answering pets_exist) any_path (e_caption_func pets_env) None
             (fun _ _ => Raises (L "no token")) (fun _ => Raises (L "offline"))
             REPORT_CSV (one_doc pets_text) [doc_path] false with
     | Ok o => Some (o_rows o)
     | Abort _ => None
     end)
  = Some [["file"; "kind"; "src"; "old_alt"; "ai_caption"];
          ["content/post.md"; "md"; "x.png";
           "a long description of the first picture"; "cat"];
          ["content/post.md"; "md"; "y.png"; "b"; "dog"]]%string.
Proof. vm_compute. reflexivity. Qed.






(* ================================================================= *)
(** ** Transient files when the remote call returns *)

Lemma filter_keeps_smaller (n : nat) (ts : list nat) :
  Forall (fun x => x < n) ts -> filter (fun x => negb (x =? n)) ts = ts.
Proof.
  induction 1 as [|x ts Hx _ IH]; [reflexivity|]. simpl.
  destruct (x =? n) eqn:E; [apply Nat.eqb_eq in E; lia|].
  simpl. now rewrite IH.
Qed.

(** Captioning an image leaves the transient files as they were when the
    remote call on a downloaded image does not raise. *)
Lemma caption_image_temps (E : Env) (path : Path) (src : str) (w w' : World)
    (c : str) :
  (forall content t, exists c, e_hf_api E (TempFile content) t = Returns c) ->
  Forall (fun x => x < w_fresh w) (w_temps w) ->
  caption_image E path src w = Ok (c, w') ->
  w_temps w' = w_temps w /\ w_fresh w <= w_fresh w'.
Proof.
  intros Hapi Hts. unfold caption_image, caption_remote, create_temp, unlink.
  destruct (resolve_image_path E src path) as [r|e]; cbn [bind];
    [|discriminate].
  destruct (path_exists E r) as [b|e]; cbn [bind]; [|discriminate].
  intros H. apply Ok_inj in H. apply (f_equal snd) in H. cbn [snd] in H.
  subst w'. destruct b.
  - destruct r, (e_caption_func E), (token_set E);
      simpl; split; (reflexivity || lia).
  - destruct (token_set E) as [t|]; [|now split].
    destruct (startswith _ src); [|now split].
    destruct (e_http_get E src) as [content|]; [|now split].
    destruct (Hapi content t) as [c0 ->]. simpl.
    rewrite Nat.eqb_refl. simpl. split; [|lia].
    now apply filter_keeps_smaller.
Qed.

(** X15: when the remote captioning of a downloaded image never raises,
    a run on a document leaves exactly the transient files that were
    there before: each file it creates is removed again, and no other
    one is. *)
Theorem no_transient_file_left_when_calls_return (E : Env) (w w' : World)
    (path : Path) (apply : bool) (rows : list ChangeRecord) :
  (forall content t, exists c, e_hf_api E (TempFile content) t = Returns c) ->
  Forall (fun x => x < w_fresh w) (w_temps w) ->
  process_file E w path apply = Ok (rows, w') ->
  w_temps w' = w_temps w.
Proof.
  intros Hapi Hts H.
  destruct (read_text (w_docs w) path) as [txt|] eqn:Hread;
    [|unfold process_file in H; rewrite Hread in H; discriminate].
  destruct (process_file_inv E w w' path apply txt rows Hread H)
    as (st & Hp & _ & Hw').
  assert (Hinv : w_temps (l_world st) = w_temps w
                 /\ w_fresh w <= w_fresh (l_world st)).
  { apply (process_images_world E path apply
             (fun w0 => w_temps w0 = w_temps w /\ w_fresh w <= w_fresh w0))
      with (st := LState txt [] w) (images := find_images_in_markdown txt);
      [|exact Hp|split; [reflexivity | apply Nat.le_refl]].
    intros w0 src c w1 [Ht Hf] Hc.
    assert (Hts0 : Forall (fun x => x < w_fresh w0) (w_temps w0)).
    { rewrite Ht. eapply Forall_impl; [|exact Hts]. simpl. intros; lia. }
    destruct (caption_image_temps E path src w0 w1 c Hapi Hts0 Hc) as [H1 H2].
    split; [now rewrite H1 | lia]. }
  destruct Hw' as [[_ ->] | (_ & _ & _ & ->)]; exact (proj1 Hinv).
Qed.

Lemma no_transient_file_left_when_calls_return_witness :
  (forall content t,
     exists c, e_hf_api (remote_env (Returns (L "a cat"))) (TempFile content) t
               = Returns c)
  /\ Forall (fun x => x < w_fresh (one_doc (L "![old](https://example.org/cat.png)")))
            (w_temps (one_doc (L "![old](https://example.org/cat.png)")))
  /\ process_file (remote_env (Returns (L "a cat")))
       (one_doc (L "![old](https://example.org/cat.png)")) doc_path true
     = Ok ([MkChange doc_path md cat_url (L "old") (L "a cat")],
           MkWorld [(doc_path, L "![a cat](https://example.org/cat.png)");
                    (bak_path doc_path, L "![old](https://example.org/cat.png)")]
                   [] 1)
  /\ w_temps (MkWorld [(doc_path, L "![a cat](https://example.org/cat.png)");
                       (bak_path doc_path,
                        L "![old](https://example.org/cat.png)")] [] 1)
     = w_temps (one_doc (L "![old](https://example.org/cat.png)")).
Proof.
  assert (Hapi : forall content t,
            exists c, e_hf_api (remote_env (Returns (L "a cat")))
                        (TempFile content) t = Returns c)
    by (intros; eexists; reflexivity).
  assert (Hts : Forall (fun x => x < w_fresh (one_doc
                          (L "![old](https://example.org/cat.png)")))
                  (w_temps (one_doc (L "![old](https://example.org/cat.png)"))))
    by constructor.
  assert (Hrun : process_file (remote_env (Returns (L "a cat")))
                   (one_doc (L "![old](https://example.org/cat.png)"))
                   doc_path true
                 = Ok ([MkChange doc_path md cat_url (L "old") (L "a cat")],
                       MkWorld
                         [(doc_path, L "![a cat](https://example.org/cat.png)");
                          (bak_path doc_path,
                           L "![old](https://example.org/cat.png)")] [] 1))
    by (vm_compute; reflexivity).
  split; [exact Hapi|]. split; [exact Hts|]. split; [exact Hrun|].
  exact (no_transient_file_left_when_calls_return
           (remote_env (Returns (L "a cat")))
           (one_doc (L "![old](https://example.org/cat.png)")) _ doc_path true
           _ Hapi Hts Hrun).
Defined.

(* ================================================================= *)
(** ** A failed captioning in a dry run *)

(** X16: in a dry run in which the existence checks for the located
    images answer, when captioning a located image raises, the run still
    ends with a row for every located image, and the row of that image
    carries the placeholder with the message of the exception. *)
Theorem dry_run_failure_becomes_placeholder (E : Env) (w : World)
    (path : Path) (txt : str) (img : image) (msg : str) :
  read_text (w_docs w) path = Some txt ->
  checks_answer_in E path txt = true ->
  In img (find_images_in_markdown txt) ->
  captioning_raises E path (img_src img) msg ->
  exists rows w' old_alt,
    process_file E w path false = Ok (rows, w')
    /\ List.length rows = List.length (find_images_in_markdown txt)
    /\ In (MkChange path (img_kind img) (img_src img) old_alt (placeholder msg))
          rows.
Proof.
  intros Hread Hchk Hin Hr.
  destruct (process_file_dry E w path txt Hread Hchk) as (w' & Hp & _).
  eexists _, w', _. split; [exact Hp|]. split; [apply length_map|].
  apply in_map_iff. exists img. split; [|exact Hin].
  unfold dry_row. f_equal.
  exact (proj2 (raises_caption_text E path (img_src img) msg Hr)).
Qed.

Lemma dry_run_failure_becomes_placeholder_witness :
  read_text (w_docs (one_doc tags_text)) doc_path = Some tags_text
  /\ checks_answer_in json_env doc_path tags_text = true
  /\ In (html, L "x.png", 0) (find_images_in_markdown tags_text)
  /\ captioning_raises json_env doc_path (img_src (html, L "x.png", 0)) json_msg
  /\ exists rows w' old_alt,
       process_file json_env (one_doc tags_text) doc_path false
       = Ok (rows, w')
       /\ List.length rows = List.length (find_images_in_markdown tags_text)
       /\ In (MkChange doc_path (img_kind (html, L "x.png", 0))
                (img_src (html, L "x.png", 0)) old_alt (placeholder json_msg))
             rows.
Proof.
  assert (Hread : read_text (w_docs (one_doc tags_text)) doc_path
                  = Some tags_text) by reflexivity.
  assert (Hchk : checks_answer_in json_env doc_path tags_text = true)
    by (vm_compute; reflexivity).
  assert (Hin : In (html, L "x.png", 0) (find_images_in_markdown tags_text))
    by (vm_compute; left; reflexivity).
  assert (Hr : captioning_raises json_env doc_path
                 (img_src (html, L "x.png", 0)) json_msg).
  { exact (@raises_api json_env doc_path (L "x.png") json_msg
             (in_content "x.png") (L "hf_secret")
             eq_refl eq_refl eq_refl eq_refl eq_refl). }
  split; [exact Hread|]. split; [exact Hchk|]. split; [exact Hin|].
  split; [exact Hr|].
  exact (dry_run_failure_becomes_placeholder json_env (one_doc tags_text)
           doc_path tags_text (html, L "x.png", 0) json_msg Hread Hchk Hin Hr).
Defined.
